(** * heart-animation: the per-frame particle and mesh update

    A shallow embedding of the numeric core of the three revisions of the
    heart animation that the repository carries:

    - [rev_000]: "3D Heart Animation - Optimized Version" (src/unnamed/part_000),
    - [rev_001]: the revision with background effects (src/unnamed/part_001),
    - [Main]:    "3D Heart Animation - Rebuilt Version" (src/assets/js/main.js).

    JavaScript numbers are modelled as exact rationals ([Qc], canonical
    fractions, so that [=] is Leibniz equality and [ring] applies); the
    rounding of IEEE doubles and of [Float32Array] stores is not modelled.
    Typed arrays are lists with stdpp's lookup and insert: a store past the
    end of a typed array is ignored, exactly as [<[i:=v]>] does.  The
    third-party objects the code calls ([SimplexNoise], the gsap timeline,
    the WebGL renderer) are inputs of the model: a noise function carried by
    the objects that hold [this.simplex], a timeline value function, and a
    per-frame flag telling whether the renderer throws. *)

From Stdlib Require Import QArith Qcanon Qround Lia Lqa Zify ZifyNat.
From stdpp Require Import base list numbers strings gmap.

Local Open Scope Qc_scope.

(** ** Numbers *)

(** A decimal literal of the source, as an exact fraction. *)
Definition num (q : Q) : Qc := Q2Qc q.
Arguments num q%_Q : simpl never.

(** The comparisons [p < q] and [p > q] of two numbers, as booleans. *)
Definition ltb (p q : Qc) : bool := bool_decide (Qclt p q).
Definition gtb (p q : Qc) : bool := bool_decide (Qclt q p).
Arguments ltb : simpl never.
Arguments gtb : simpl never.
#[local] Infix "<?" := ltb (at level 70) : Qc_scope.
#[local] Infix ">?" := gtb (at level 70) : Qc_scope.

(** ** Configuration (the [CONFIG] object; identical in both revisions for
    every field used below) *)

Module CONFIG.
Definition PARTICLE_COUNT : nat := Z.to_nat 10000.
Definition PARTICLE_RANDOM_FACTOR : Qc := num 0.03.
Definition BEAT_MAX_VALUE : Qc := num 0.5.
Definition NOISE_SCALE : Qc := num 1.5.
Definition NOISE_FREQUENCY : Qc := num 500.
Definition NOISE_AMPLITUDE : Qc := num 0.15.
Definition MAX_Z : Qc := num 0.23.
Definition RATE_Z : Qc := num 0.5.
Definition FRAME_SKIP_THRESHOLD : Qc := num 16.
End CONFIG.

(** Pre-computed constants. *)
Definition PARTICLE_COUNT_6 : nat := (CONFIG.PARTICLE_COUNT * 6)%nat.
Definition MAX_Z_RATE_Z : Qc := CONFIG.MAX_Z * CONFIG.RATE_Z.
Definition NOISE_SCALE_AMPLITUDE : Qc := CONFIG.NOISE_SCALE * CONFIG.NOISE_AMPLITUDE.

(** The two revisions that contain [SparkPoint], [updateParticles] and
    [updateHeartGeometry]. *)
Inductive revision := rev_000 | rev_001.

(** ** THREE.Vector3, THREE.Color, SimplexNoise *)

Record Vector3 := mkVector3 { x : Qc; y : Qc; z : Qc }.

(** [v.clone()]: a fresh vector with the same components. *)
Definition clone (v : Vector3) : Vector3 := mkVector3 (x v) (y v) (z v).

(** [v.multiplyScalar(s)]: every component is multiplied by [s]. *)
Definition multiplyScalar (v : Vector3) (s : Qc) : Vector3 :=
  mkVector3 (x v * s) (y v * s) (z v * s).

Record Color := mkColor { r : Qc; g : Qc; b : Qc }.

(** The noise object: only [noise4D] is called. *)
Record SimplexNoise := { noise4D : Qc -> Qc -> Qc -> Qc -> Qc }.

(** The shared beat object [{ a: 0 }]. *)
Record Beat := mkBeat { a : Qc }.

(** ** Completions

    A method either returns or throws; what it had already written stays
    written in both cases, so every method returns the state with its
    completion. *)

Inductive exn := TypeError | RendererError.
Inductive completion := Normal | Thrown (e : exn).

(** ** Typed arrays *)

(** [arr[i]] as a number.  Past the end JavaScript reads [undefined], which
    the arithmetic that follows turns into NaN; no rational stands for it,
    so the read defaults to [0] there and the statements about values keep
    their indices in range. *)
Definition read (arr : list Qc) (i : nat) : Qc := default 0 (arr !! i).

(** Three consecutive stores [arr[i] = u; arr[i + 1] = v; arr[i + 2] = w]. *)
Definition write3 (arr : list Qc) (i : nat) (u v w : Qc) : list Qc :=
  <[(i + 2)%nat := w]> (<[(i + 1)%nat := v]> (<[i := u]> arr)).

(** The indices visited by [for (let i = 0; i < len; i += 3)]. *)
Definition stride3 (len : nat) : list nat :=
  (fun k => 3 * k)%nat <$> seq 0 ((len + 2) / 3)%nat.

(** ** SparkPoint *)

Module SparkPoint.

Record t := mk {
  color : Color;
  rand : Qc;
  pos : Vector3;
  one : option Vector3;   (* null until the first update *)
  two : option Vector3;
  simplex : SimplexNoise
}.

(** What one construction takes from its environment: the point that
    [sampler.sample(pos)] writes into the shared vector [pos], the palette
    entry that [palette[Math.floor(Math.random() * palette.length)]] picks,
    and the result of the second [Math.random()]. *)
Record draw := mkDraw { sampled : Vector3; picked : Color; random : Qc }.

(** [new SparkPoint(sampler, palette, simplex, pos)]. *)
Definition new (d : draw) (sx : SimplexNoise) : t :=
  {| color := picked d;
     rand := random d * CONFIG.PARTICLE_RANDOM_FACTOR;
     pos := clone (sampled d);
     one := None;
     two := None;
     simplex := sx |}.

(** [update(beat)].  The two revisions differ in the factor of [two] only. *)
Definition update (rv : revision) (beat : Beat) (s : t) : t :=
  let noise :=
    noise4D (simplex s) (x (pos s) * 1) (y (pos s) * 1) (z (pos s) * 1) (num 0.1)
    + num 1.5 in
  let noise2 :=
    noise4D (simplex s)
      (x (pos s) * CONFIG.NOISE_FREQUENCY)
      (y (pos s) * CONFIG.NOISE_FREQUENCY)
      (z (pos s) * CONFIG.NOISE_FREQUENCY)
      1
    + 1 in
  {| color := color s;
     rand := rand s;
     pos := pos s;
     one := Some (multiplyScalar (clone (pos s))
                    (num 1.01 + noise * NOISE_SCALE_AMPLITUDE * a beat));
     two := Some (multiplyScalar (clone (pos s))
                    match rv with
                    | rev_000 => num 1.01 + noise2 * NOISE_SCALE_AMPLITUDE * a beat
                    | rev_001 => 1 + noise2 * (a beat + num 0.3) - a beat * num 1.2
                    end);
     simplex := simplex s |}.

End SparkPoint.

(** ** HeartAnimation (part_000 and part_001) *)

Module HeartAnimation.

(** The gsap timeline that [setupAnimation] builds.  gsap itself is not part
    of the repository: what a timeline writes into its target is an input of
    the model (see [gsapTick]). *)
Inductive ease := power2_in | power3_out.
Record Tween := mkTween { to_a : Qc; duration : Qc; tween_ease : ease }.
Record Timeline := mkTimeline { repeat : Z; repeatDelay : Qc; tweens : list Tween }.

Definition BEAT_DURATION (rv : revision) : Qc :=
  match rv with rev_000 => num 0.48 | rev_001 => num 0.51 end.
Definition BEAT_REPEAT_DELAY (rv : revision) : Qc :=
  match rv with rev_000 => num 0.24 | rev_001 => num 0.255 end.

(** Calls on external objects that a frame makes and an observer can see. *)
Inductive effect := RendererRender | ShowError.

Record t := mk {
  spikes : list SparkPoint.t;
  positions : list Qc;               (* Float32Array(PARTICLE_COUNT * 6) *)
  colors : list Qc;                  (* Float32Array(PARTICLE_COUNT * 6) *)
  position_attribute : option nat;   (* end of the view positions.subarray(0, end) *)
  color_attribute : option nat;      (* end of the view colors.subarray(0, end) *)
  heart : option (list Qc);          (* heart.geometry.attributes.position.array;
                                        None while this.heart is null *)
  needsUpdate : bool;
  originHeart : option (list Qc);    (* null until the model is loaded *)
  simplex : SimplexNoise;
  beat : Beat;
  timeline : option Timeline;        (* the gsap timeline, once created *)
  isAnimating : bool;
  lastRenderTime : Qc;
  pendingFrame : bool;               (* requestAnimationFrame(animate) is outstanding *)
  trace : list effect
}.

Definition method := t -> completion * t.

Definition ret : method := fun st => (Normal, st).
Definition throw (e : exn) : method := fun st => (Thrown e, st).

(** [m1; m2]: the second statement runs only if the first one returned. *)
Definition andThen (m1 m2 : method) : method :=
  fun st => match m1 st with
            | (Normal, st') => m2 st'
            | (Thrown e, st') => (Thrown e, st')
            end.

(** [try { m } catch (error) { handler(error) }]. *)
Definition tryCatch (m : method) (handler : exn -> method) : method :=
  fun st => match m st with
            | (Normal, st') => (Normal, st')
            | (Thrown e, st') => handler e st'
            end.

(** A statement that cannot throw. *)
Definition assign (f : t -> t) : method := fun st => (Normal, f st).

#[local] Infix ">>>" := andThen (at level 62, right associativity).

(** *** Field assignments *)

Definition set_particles (sp : list SparkPoint.t) (ps cs : list Qc) (st : t) : t :=
  mk sp ps cs (position_attribute st) (color_attribute st) (heart st)
     (needsUpdate st) (originHeart st) (simplex st) (beat st) (timeline st)
     (isAnimating st) (lastRenderTime st) (pendingFrame st) (trace st).

Definition set_attributes (pe ce : nat) (st : t) : t :=
  mk (spikes st) (positions st) (colors st) (Some pe) (Some ce) (heart st)
     (needsUpdate st) (originHeart st) (simplex st) (beat st) (timeline st)
     (isAnimating st) (lastRenderTime st) (pendingFrame st) (trace st).

Definition set_heart (vs : list Qc) (st : t) : t :=
  mk (spikes st) (positions st) (colors st) (position_attribute st)
     (color_attribute st) (Some vs) (needsUpdate st) (originHeart st)
     (simplex st) (beat st) (timeline st) (isAnimating st) (lastRenderTime st)
     (pendingFrame st) (trace st).

Definition set_needsUpdate (v : bool) (st : t) : t :=
  mk (spikes st) (positions st) (colors st) (position_attribute st)
     (color_attribute st) (heart st) v (originHeart st) (simplex st) (beat st)
     (timeline st) (isAnimating st) (lastRenderTime st) (pendingFrame st)
     (trace st).

Definition set_originHeart (oh : list Qc) (st : t) : t :=
  mk (spikes st) (positions st) (colors st) (position_attribute st)
     (color_attribute st) (heart st) (needsUpdate st) (Some oh) (simplex st)
     (beat st) (timeline st) (isAnimating st) (lastRenderTime st)
     (pendingFrame st) (trace st).

Definition set_beat_a (v : Qc) (st : t) : t :=
  mk (spikes st) (positions st) (colors st) (position_attribute st)
     (color_attribute st) (heart st) (needsUpdate st) (originHeart st)
     (simplex st) (mkBeat v) (timeline st) (isAnimating st) (lastRenderTime st)
     (pendingFrame st) (trace st).

Definition set_timeline (tl : Timeline) (st : t) : t :=
  mk (spikes st) (positions st) (colors st) (position_attribute st)
     (color_attribute st) (heart st) (needsUpdate st) (originHeart st)
     (simplex st) (beat st) (Some tl) (isAnimating st) (lastRenderTime st)
     (pendingFrame st) (trace st).

Definition set_isAnimating (v : bool) (st : t) : t :=
  mk (spikes st) (positions st) (colors st) (position_attribute st)
     (color_attribute st) (heart st) (needsUpdate st) (originHeart st)
     (simplex st) (beat st) (timeline st) v (lastRenderTime st)
     (pendingFrame st) (trace st).

Definition set_lastRenderTime (v : Qc) (st : t) : t :=
  mk (spikes st) (positions st) (colors st) (position_attribute st)
     (color_attribute st) (heart st) (needsUpdate st) (originHeart st)
     (simplex st) (beat st) (timeline st) (isAnimating st) v
     (pendingFrame st) (trace st).

Definition set_pendingFrame (v : bool) (st : t) : t :=
  mk (spikes st) (positions st) (colors st) (position_attribute st)
     (color_attribute st) (heart st) (needsUpdate st) (originHeart st)
     (simplex st) (beat st) (timeline st) (isAnimating st) (lastRenderTime st)
     v (trace st).

Definition emit (e : effect) (st : t) : t :=
  mk (spikes st) (positions st) (colors st) (position_attribute st)
     (color_attribute st) (heart st) (needsUpdate st) (originHeart st)
     (simplex st) (beat st) (timeline st) (isAnimating st) (lastRenderTime st)
     (pendingFrame st) (trace st ++ [e]).

(** [requestAnimationFrame(animate)]. *)
Definition requestAnimationFrame : method := assign (set_pendingFrame true).

(** What the renderer is given for the point cloud: the two views set by
    [geometry.setAttribute].  A view shares the buffer and [subarray] clamps
    its end to the buffer's length, which is what [take] does. *)
Definition exposed_positions (st : t) : option (list Qc) :=
  (fun e => take e (positions st)) <$> position_attribute st.
Definition exposed_colors (st : t) : option (list Qc) :=
  (fun e => take e (colors st)) <$> color_attribute st.

(** *** updateParticles *)

(** The locals of [updateParticles]: the two buffers (aliases of
    [this.positions] and [this.colors]) and the two write indices. *)
Record cursor := mkCursor {
  buf_positions : list Qc;
  buf_colors : list Qc;
  posIdx : nat;
  colorIdx : nat
}.

(** The six stores of one accepted candidate:
    [positions[posIdx++] = v.x; ...; colors[colorIdx++] = color.b]. *)
Definition push (c : cursor) (v : Vector3) (col : Color) : cursor :=
  mkCursor (write3 (buf_positions c) (posIdx c) (x v) (y v) (z v))
           (write3 (buf_colors c) (colorIdx c) (r col) (g col) (b col))
           (posIdx c + 3)%nat (colorIdx c + 3)%nat.

(** The body of the loop, for one spike. *)
Definition examine (rv : revision) (beat : Beat) (c : cursor) (spike0 : SparkPoint.t)
  : completion * SparkPoint.t * cursor :=
  let spike := SparkPoint.update rv beat spike0 in
  let rand := SparkPoint.rand spike in
  let color := SparkPoint.color spike in
  match SparkPoint.one spike with
  | None => (Thrown TypeError, spike, c)
  | Some one =>
      (* First particle layer *)
      let c1 :=
        if (MAX_Z_RATE_Z + rand >? z one) && (z one >? - MAX_Z_RATE_Z - rand)
        then push c one color
        else c in
      (* Second particle layer *)
      if (MAX_Z_RATE_Z + rand * 2 >? z one) && (z one >? - MAX_Z_RATE_Z - rand * 2)
      then match SparkPoint.two spike with
           | None => (Thrown TypeError, spike, c1)
           | Some two => (Normal, spike, push c1 two color)
           end
      else (Normal, spike, c1)
  end.

(** [for (let i = 0, len = spikes.length; i < len; i++)]. *)
Fixpoint pack (rv : revision) (beat : Beat) (sp : list SparkPoint.t) (c : cursor)
  : completion * list SparkPoint.t * cursor :=
  match sp with
  | [] => (Normal, [], c)
  | spike :: rest =>
      match examine rv beat c spike with
      | (Normal, spike', c') =>
          let '(k, rest', c'') := pack rv beat rest c' in
          (k, spike' :: rest', c'')
      | (Thrown e, spike', c') => (Thrown e, spike' :: rest, c')
      end
  end.

Definition updateParticles (rv : revision) : method := fun st =>
  let '(k, sp, c) :=
    pack rv (beat st) (spikes st) (mkCursor (positions st) (colors st) 0 0) in
  let st' := set_particles sp (buf_positions c) (buf_colors c) st in
  match k with
  | Normal => (Normal, set_attributes (posIdx c) (colorIdx c) st')
  | Thrown e => (Thrown e, st')
  end.

(** *** updateHeartGeometry *)

(** The loop of [updateHeartGeometry] over the live array [vs]. *)
Definition displace (rv : revision) (sx : SimplexNoise) (beat time : Qc)
    (originHeart vs : list Qc) : list Qc :=
  let timeFactor :=
    time * match rv with rev_000 => num 0.000625 | rev_001 => num 0.0005 end in
  fold_left
    (fun vs i =>
       let x := read originHeart i in
       let y := read originHeart (i + 1) in
       let z := read originHeart (i + 2) in
       let noise :=
         noise4D sx (x * CONFIG.NOISE_SCALE) (y * CONFIG.NOISE_SCALE)
           (z * CONFIG.NOISE_SCALE) timeFactor
         + 1 in
       let scale := noise * NOISE_SCALE_AMPLITUDE * beat in
       write3 vs i (x * scale) (y * scale) (z * scale))
    (stride3 (length vs)) vs.

(** [updateHeartGeometry(time)].  In part_000 it ends with
    [updateTextAnimation(time)], which moves the text mesh only. *)
Definition updateHeartGeometry (rv : revision) (time : Qc) : method := fun st =>
  match heart st with
  | None => (Thrown TypeError, st)
  | Some vs =>
      match originHeart st with
      | None =>
          match vs with
          | [] => (Normal, set_needsUpdate true st)
          | _ :: _ => (Thrown TypeError, st)
          end
      | Some oh =>
          (Normal,
           set_needsUpdate true
             (set_heart (displace rv (simplex st) (a (beat st)) time oh vs) st))
      end
  end.

(** *** render *)

(** What the environment decides for one animation frame. *)
Record frame := mkFrame {
  currentTime : Qc;        (* the timestamp passed to the callback *)
  documentHidden : bool;   (* document.hidden *)
  rendererThrows : bool    (* renderer.render(scene, camera) throws *)
}.

(** [updateControls()]: part_001 also marks the heart's vertices dirty. *)
Definition updateControls (rv : revision) : method :=
  match rv with
  | rev_000 => ret
  | rev_001 => assign (set_needsUpdate true)
  end.

Definition rendererRender (f : frame) : method :=
  if rendererThrows f then throw RendererError else assign (emit RendererRender).

(** [render(time)].  part_001 also calls [updateSmallHeart()], which only
    rescales the small heart mesh. *)
Definition render (rv : revision) (f : frame) : method := fun st =>
  if negb (isAnimating st) || negb (bool_decide (is_Some (heart st))) then (Normal, st)
  else if documentHidden f then (Normal, st)
  else
    tryCatch
      (updateParticles rv >>> updateHeartGeometry rv (currentTime f) >>>
       updateControls rv >>> rendererRender f)
      (fun error => throw error)   (* re-thrown to the animate function *)
      st.

(** *** setupAnimation, startAnimation *)

Definition setupAnimation (rv : revision) (REDUCED_MOTION : bool) : method :=
  if REDUCED_MOTION then
    assign (set_beat_a (CONFIG.BEAT_MAX_VALUE * num 0.3))
  else
    assign (set_timeline
              (mkTimeline (-1) (BEAT_REPEAT_DELAY rv)
                 [ mkTween CONFIG.BEAT_MAX_VALUE (BEAT_DURATION rv) power2_in;
                   mkTween (num 0.0) (BEAT_DURATION rv) power3_out ])).

(** The closure [animate] of [startAnimation], called back with [currentTime]. *)
Definition animate (rv : revision) (f : frame) : method := fun st =>
  if negb (isAnimating st) then (Normal, st)
  else
    (* Frame skipping for performance *)
    let deltaTime := currentTime f - lastRenderTime st in
    if deltaTime <? CONFIG.FRAME_SKIP_THRESHOLD then
      requestAnimationFrame st
    else
      match (render rv f >>> assign (set_lastRenderTime (currentTime f))) st with
      | (Normal, st') => requestAnimationFrame st'
      | (Thrown _, st') => (Normal, emit ShowError (set_isAnimating false st'))
      end.

(** [startAnimation()]; [now] is what [performance.now()] returns. *)
Definition startAnimation (now : Qc) : method :=
  assign (set_isAnimating true) >>>
  assign (set_lastRenderTime now) >>>
  requestAnimationFrame.

(** *** The life of the object *)

(** The state after the constructor.  part_001 allocates the two buffers
    there; part_000 leaves them null (here empty) until
    [startMainAnimation]. *)
Definition new (rv : revision) (sx : SimplexNoise) : t :=
  let buffer := match rv with
                | rev_000 => []
                | rev_001 => replicate PARTICLE_COUNT_6 0
                end in
  mk [] buffer buffer None None None false None sx (mkBeat 0) None false 0 false [].

(** [startMainAnimation()] (part_000) and [startAnimationFlow()] (part_001),
    without the calls that only build three.js and DOM objects. *)
Definition startMainAnimation (rv : revision) (REDUCED_MOTION : bool) : method :=
  match rv with
  | rev_000 =>
      assign (fun st => set_particles (spikes st)
                          (replicate (CONFIG.PARTICLE_COUNT * 6) 0)
                          (replicate (CONFIG.PARTICLE_COUNT * 6) 0) st)
  | rev_001 => ret
  end >>>
  setupAnimation rv REDUCED_MOTION.

(** [initParticles()]; [draws i] is what the construction of spark [i]
    takes from the sampler and from [Math.random]. *)
Definition initParticles (draws : nat -> SparkPoint.draw) : method :=
  assign (fun st =>
    set_particles
      ((fun i => SparkPoint.new (draws i) (simplex st)) <$> seq 0 CONFIG.PARTICLE_COUNT)
      (positions st) (colors st) st).

(** [onHeartLoaded(obj)], without the calls on the DOM, the audio and the
    materials; [vs] is the position array of the loaded mesh once
    [setupHeartGeometry] has rotated, scaled and translated it, and
    [originHeart] is [Array.from] of it. *)
Definition onHeartLoaded (vs : list Qc) (draws : nat -> SparkPoint.draw) (now : Qc)
  : method :=
  assign (set_heart vs) >>>
  assign (set_originHeart vs) >>>
  initParticles draws >>>
  startAnimation now.

(** One turn of the gsap ticker: a timeline, if there is one, writes the
    value it computes for the time [now] into [beat.a].  [value] stands for
    gsap's tweening. *)
Definition gsapTick (value : Timeline -> Qc -> Qc) (now : Qc) (st : t) : t :=
  match timeline st with
  | Some tl => set_beat_a (value tl now) st
  | None => st
  end.

(** What happens to the object once it is set up: the model arrives, gsap
    ticks, and the browser calls [animate] back when a frame was requested. *)
Inductive event :=
| HeartLoaded (vs : list Qc) (draws : nat -> SparkPoint.draw) (now : Qc)
| GsapTick (now : Qc)
| AnimationFrame (f : frame).

Definition step (rv : revision) (value : Timeline -> Qc -> Qc) (st : t) (ev : event) : t :=
  match ev with
  | HeartLoaded vs draws now => (onHeartLoaded vs draws now st).2
  | GsapTick now => gsapTick value now st
  | AnimationFrame f =>
      if pendingFrame st then (animate rv f (set_pendingFrame false st)).2 else st
  end.

Definition run (rv : revision) (value : Timeline -> Qc -> Qc) (evs : list event) (st : t) : t :=
  fold_left (step rv value) evs st.

End HeartAnimation.

(** ** HeartAnimation of assets/js/main.js *)

Module Main.

Record t := mk {
  isAnimating : bool;
  heart : list Qc;          (* heart.geometry.attributes.position.array *)
  needsUpdate : bool;
  originHeart : list Qc;
  simplex : SimplexNoise;
  beat : Beat
}.

(** The heart geometry part of [animate()]; [now] is what
    [performance.now()] returns. *)
Definition animate (now : Qc) (st : t) : t :=
  if negb (isAnimating st) then st
  else
    let vs := heart st in
    let time := now * num 0.000625 in
    let vs' :=
      fold_left
        (fun vs i =>
           let n :=
             noise4D (simplex st)
               (read (originHeart st) i * num 1.5)
               (read (originHeart st) (i + 1) * num 1.5)
               (read (originHeart st) (i + 2) * num 1.5)
               time in
           let scale := 1 + (n * (num 0.15 * a (beat st))) in
           write3 vs i
             (read (originHeart st) i * scale)
             (read (originHeart st) (i + 1) * scale)
             (read (originHeart st) (i + 2) * scale))
        (stride3 (length vs)) vs in
    mk (isAnimating st) vs' true (originHeart st) (simplex st) (beat st).

End Main.

(** ** Concrete inputs used by the examples below *)

Module Fixture.

(** The stub noise function that is constantly [0]. *)
Definition zero_noise : SimplexNoise := {| noise4D := fun _ _ _ _ => 0 |}.

(** The palette entry [#ff1775]. *)
Definition ff1775 : Color := mkColor 1 (Q2Qc (23 # 255)) (Q2Qc (117 # 255)).

Definition still : Beat := mkBeat 0.

(** A spark that was never updated. *)
Definition spark (p : Vector3) (jitter : Qc) : SparkPoint.t :=
  SparkPoint.mk ff1775 jitter p None None zero_noise.

(** A spark further out on the z axis. *)
Definition off_band : SparkPoint.t := spark (mkVector3 0 0 (num 0.115)) (num 0.01).

Definition beating : Beat := mkBeat (num 0.5).

(** A loaded object with the given sparks and beat, buffers for two
    sparks, and a heart mesh of two vertices at rest. *)
Definition rest_mesh : list Qc := [1; 1; 1; num 0.5; 0; -(1)].

Definition loaded (sp : list SparkPoint.t) (beat : Beat) : HeartAnimation.t :=
  HeartAnimation.mk sp (replicate 12 0) (replicate 12 0) None None
    (Some rest_mesh) false (Some rest_mesh) zero_noise beat None true 0 true [].

(** The object of assets/js/main.js with the same mesh. *)
Definition main_loaded : Main.t := Main.mk true rest_mesh false rest_mesh zero_noise still.

(** A spark on the z axis, and its twin with another jitter. *)
Definition on_axis : SparkPoint.t := spark (mkVector3 0 0 (num 0.11)) (num 0.01).
Definition on_axis' : SparkPoint.t := spark (mkVector3 0 0 (num 0.11)) (num 0.02).

End Fixture.

(** ** What the specification says of a spark's candidates *)

(** The first candidate as §4.4 writes it:
    [origin * (1.01 + (n1 + 1.5) * K * b)], [n1] the noise at
    [(origin, 0.1)], [K] the product of the noise scale and the noise
    amplitude. *)
Definition candidateNear (sx : SimplexNoise) (origin : Vector3) (b : Qc) : Vector3 :=
  let n1 := noise4D sx (x origin) (y origin) (z origin) (num 0.1) in
  let K := CONFIG.NOISE_SCALE * CONFIG.NOISE_AMPLITUDE in
  multiplyScalar origin (num 1.01 + (n1 + num 1.5) * K * b).

(** The second noise sample, at [origin * NOISE_FREQUENCY] and [1]. *)
Definition n2 (sx : SimplexNoise) (origin : Vector3) : Qc :=
  noise4D sx (x origin * CONFIG.NOISE_FREQUENCY) (y origin * CONFIG.NOISE_FREQUENCY)
    (z origin * CONFIG.NOISE_FREQUENCY) 1.

(** The second candidate, in the two forms found in the sources. *)
Definition candidateFar_000 (sx : SimplexNoise) (origin : Vector3) (b : Qc) : Vector3 :=
  let K := CONFIG.NOISE_SCALE * CONFIG.NOISE_AMPLITUDE in
  multiplyScalar origin (num 1.01 + (n2 sx origin + 1) * K * b).

Definition candidateFar_001 (sx : SimplexNoise) (origin : Vector3) (b : Qc) : Vector3 :=
  multiplyScalar origin (1 + (n2 sx origin + 1) * (b + num 0.3) - b * num 1.2).

(** The second candidate of a revision. *)
Definition candidateFar (rv : revision) (sx : SimplexNoise) (origin : Vector3) (b : Qc)
  : Vector3 :=
  match rv with
  | rev_000 => candidateFar_000 sx origin b
  | rev_001 => candidateFar_001 sx origin b
  end.

(** ** The depth band and the packed prefix *)

(** The depth-band test of §4.6: [-D - jitter < zc < D + jitter], with
    [D = MAX_Z * RATE_Z]. *)
Definition in_band (jitter zc : Qc) : bool :=
  (- (CONFIG.MAX_Z * CONFIG.RATE_Z) - jitter <? zc)
  && (zc <? CONFIG.MAX_Z * CONFIG.RATE_Z + jitter).

(** The candidates of one spark that [updateParticles] stores, in the order
    of the stores: both tests look at the z of the first candidate. *)
Definition accepted (rv : revision) (beat : Beat) (s : SparkPoint.t) : list Vector3 :=
  let near := candidateNear (SparkPoint.simplex s) (SparkPoint.pos s) (a beat) in
  let far := candidateFar rv (SparkPoint.simplex s) (SparkPoint.pos s) (a beat) in
  (if in_band (SparkPoint.rand s) (z near) then [near] else [])
  ++ (if in_band (SparkPoint.rand s * 2) (z near) then [far] else []).

Definition coords (v : Vector3) : list Qc := [x v; y v; z v].
Definition channels (c : Color) : list Qc := [r c; g c; b c].

(** The floats that a pass over [sp] stores, in order. *)
Definition packed_positions (rv : revision) (beat : Beat) (sp : list SparkPoint.t)
  : list Qc :=
  sp ≫= fun s => accepted rv beat s ≫= coords.

Definition packed_colors (rv : revision) (beat : Beat) (sp : list SparkPoint.t)
  : list Qc :=
  sp ≫= fun s => accepted rv beat s ≫= fun _ => channels (SparkPoint.color s).

(** The stores of the accepted candidates [vs] of one spark of colour
    [col], and of the accepted candidates of all sparks of a pass. *)
Definition pushes (c : HeartAnimation.cursor) (vs : list Vector3) (col : Color)
  : HeartAnimation.cursor :=
  fold_left (fun c v => HeartAnimation.push c v col) vs c.

Definition fill (rv : revision) (beat : Beat) (sp : list SparkPoint.t)
    (c : HeartAnimation.cursor) : HeartAnimation.cursor :=
  fold_left (fun c s => pushes c (accepted rv beat s) (SparkPoint.color s)) sp c.

(** ** Meshes as vertex sequences *)

(** Vertex [k] of a flat position array: the numbers at [3k], [3k + 1] and
    [3k + 2]. *)
Definition vertex (arr : list Qc) (k : nat) : option Vector3 :=
  x ← arr !! (3 * k)%nat;
  y ← arr !! (3 * k + 1)%nat;
  z ← arr !! (3 * k + 2)%nat;
  Some (mkVector3 x y z).

(** The array that a loop [for (i = 0; i < len; i += 3)] with the three
    stores [arr[i] = f i; arr[i + 1] = g i; arr[i + 2] = h i] leaves behind:
    index [j] holds the value stored for the vertex [j] belongs to. *)
Definition stored (f g h : nat -> Qc) (j : nat) : Qc :=
  let i := (3 * (j / 3))%nat in
  match (j mod 3)%nat with
  | 0%nat => f i
  | 1%nat => g i
  | _ => h i
  end.

(** One round of such a loop. *)
Definition stride_body (f g h : nat -> Qc) (vs : list Qc) (i : nat) : list Qc :=
  write3 vs i (f i) (g i) (h i).

(** The three numbers that a round at index [i] reads from [originHeart]. *)
Definition origin_at (originHeart : list Qc) (i : nat) : Vector3 :=
  mkVector3 (read originHeart i) (read originHeart (i + 1)) (read originHeart (i + 2)).

(** The scale factor of §4.5: [(noise4D(x*S, y*S, z*S, timeFactor) + 1) * S * A * beat]. *)
Definition scale_spec (sx : SimplexNoise) (p : Vector3) (timeFactor beat : Qc) : Qc :=
  (noise4D sx (x p * CONFIG.NOISE_SCALE) (y p * CONFIG.NOISE_SCALE)
     (z p * CONFIG.NOISE_SCALE) timeFactor + 1)
  * CONFIG.NOISE_SCALE * CONFIG.NOISE_AMPLITUDE * beat.

(** The fourth noise coordinate of [updateHeartGeometry]. *)
Definition timeFactor (rv : revision) (time : Qc) : Qc :=
  time * match rv with rev_000 => num 0.000625 | rev_001 => num 0.0005 end.

(** The scale factor that assets/js/main.js uses instead. *)
Definition scale_main (sx : SimplexNoise) (p : Vector3) (time beat : Qc) : Qc :=
  1 + noise4D sx (x p * num 1.5) (y p * num 1.5) (z p * num 1.5) time
      * (num 0.15 * beat).

(** The scale factor as [updateHeartGeometry] computes it from the numbers
    read in one round. *)
Definition scale_code (rv : revision) (sx : SimplexNoise) (beat time : Qc) (p : Vector3)
  : Qc :=
  (noise4D sx (x p * CONFIG.NOISE_SCALE) (y p * CONFIG.NOISE_SCALE)
     (z p * CONFIG.NOISE_SCALE) (timeFactor rv time) + 1)
  * NOISE_SCALE_AMPLITUDE * beat.

(** The array of length [len] in which every vertex is the vertex read from
    [originHeart], scaled by [scale] of it. *)
Definition displaced (scale : Vector3 -> Qc) (originHeart : list Qc) (len : nat)
  : list Qc :=
  stored (fun i => x (origin_at originHeart i) * scale (origin_at originHeart i))
         (fun i => y (origin_at originHeart i) * scale (origin_at originHeart i))
         (fun i => z (origin_at originHeart i) * scale (origin_at originHeart i))
  <$> seq 0 len.

(** ** Properties of the state that methods keep *)

(** [m] keeps [P]: if [P] holds before [m] runs it holds after, whether [m]
    returns or throws. *)
Definition preserves (P : HeartAnimation.t -> Prop) (m : HeartAnimation.method) : Prop :=
  forall st, P st -> P (m st).2.

(** A property that the stores of one rendered frame keep. *)
Class RenderStable (P : HeartAnimation.t -> Prop) : Prop := {
  stable_packer : forall rv, preserves P (HeartAnimation.updateParticles rv);
  stable_needsUpdate : forall v st, P st -> P (HeartAnimation.set_needsUpdate v st);
  stable_emit : forall e st, P st -> P (HeartAnimation.emit e st);
  stable_geometry : forall rv time, preserves P (HeartAnimation.updateHeartGeometry rv time)
}.

(** A property that the bookkeeping of the animation loop keeps as well. *)
Class LoopStable (P : HeartAnimation.t -> Prop) : Prop := {
  stable_render :: RenderStable P;
  stable_pendingFrame : forall v st, P st -> P (HeartAnimation.set_pendingFrame v st);
  stable_lastRenderTime : forall v st, P st -> P (HeartAnimation.set_lastRenderTime v st);
  stable_isAnimating : forall v st, P st -> P (HeartAnimation.set_isAnimating v st)
}.

(** No timeline exists and the beat holds the value [v]. *)
Definition beat_pinned (v : Qc) (st : HeartAnimation.t) : Prop :=
  HeartAnimation.timeline st = None /\ a (HeartAnimation.beat st) = v.

(** The live and the rest mesh are both absent, or both present with the
    same length. *)
Definition mesh_inv (st : HeartAnimation.t) : Prop :=
  match HeartAnimation.heart st, HeartAnimation.originHeart st with
  | Some vs, Some oh => length vs = length oh
  | None, None => True
  | _, _ => False
  end.

(** The two buffers have the size they were allocated with and there are
    no more sparks than they have room for. *)
Definition capacity_inv (st : HeartAnimation.t) : Prop :=
  length (HeartAnimation.positions st) = (CONFIG.PARTICLE_COUNT * 6)%nat
  /\ length (HeartAnimation.colors st) = (CONFIG.PARTICLE_COUNT * 6)%nat
  /\ (length (HeartAnimation.spikes st) <= CONFIG.PARTICLE_COUNT)%nat.

(** ** Proof automation *)

(** [lia] reasons about [/] and [mod] by a constant. *)
Ltac Zify.zify_post_hook ::= Z.to_euclidean_division_equations.

(** Equalities between computed numbers, vectors and arrays: compute both
    sides and compare the fractions. *)
Ltac qc_eq :=
  vm_compute;
  repeat match goal with
         | |- @eq Qc _ _ => apply Qc_is_canon; reflexivity
         | |- @eq bool _ _ => reflexivity
         | |- Some _ = Some _ => apply (f_equal Some)
         | |- mkVector3 _ _ _ = mkVector3 _ _ _ => apply f_equal3
         | |- cons _ _ = cons _ _ => apply f_equal2
         | |- nil = nil => reflexivity
         end.

(** ** More of the animation loop *)

(** The event is the arrival of the model. *)
Definition is_load (ev : HeartAnimation.event) : bool :=
  match ev with
  | HeartAnimation.HeartLoaded _ _ _ => true
  | _ => false
  end.

(** What a spark is born with: its origin, its colour and its jitter. *)
Definition born (sp : list SparkPoint.t) : list (Vector3 * Color * Qc) :=
  (fun s => (SparkPoint.pos s, SparkPoint.color s, SparkPoint.rand s)) <$> sp.

(** From numbers as canonical fractions to plain fractions, where [lra] and
    [nra] apply. *)
Ltac qc2q :=
  unfold Qcle, Qclt, Qcminus, Qcplus, Qcmult, Qcopp, num, Q2Qc in *;
  cbn [this] in *;
  repeat (rewrite Qred_correct in * );
  repeat match goal with
         | H : context [Qred ?q] |- _ => rewrite (Qred_correct q) in H
         end.

(** The contract of the noise generator: values between [-1] and [1]. *)
Definition bounded_noise (sx : SimplexNoise) : Prop :=
  forall x y z w, -(1) <= noise4D sx x y z w <= 1.

(** Orders between computed numbers. *)
Ltac qc_order :=
  vm_compute;
  first [ reflexivity | discriminate | let H := fresh in intros H; discriminate H ].

(** ** More concrete inputs *)

Module Sample.

(** A due frame whose renderer throws, one on a hidden page, and one drawn. *)
Definition failing : HeartAnimation.frame := HeartAnimation.mkFrame (num 20) false true.
Definition hidden : HeartAnimation.frame := HeartAnimation.mkFrame (num 20) true false.
Definition drawn : HeartAnimation.frame := HeartAnimation.mkFrame (num 20) false false.

(** A loaded, running object with two sparks. *)
Definition running : HeartAnimation.t :=
  Fixture.loaded [Fixture.on_axis; Fixture.off_band] Fixture.still.

End Sample.

(** ** The keyboard (onKeyDown of part_000 and part_001) *)

(** [Math.round]: the nearest integer, halves upwards. *)
Definition Math_round (q : Qc) : Z := Qfloor (q + num 0.5).

(** [Math.min] and [Math.max] of two numbers. *)
Definition Math_min (p q : Qc) : Qc := if p <? q then p else q.
Definition Math_max (p q : Qc) : Qc := if p >? q then p else q.

Module Keyboard.

(** The audio element, as far as the key handler reads and writes it. *)
Record Audio := mkAudio {
  paused : bool;
  volume : Qc;
  loop : bool;
  audio_currentTime : Qc
}.

(** [audio.play()] after a key press, and [audio.pause()]. *)
Definition play (au : Audio) : Audio :=
  mkAudio false (volume au) (loop au) (audio_currentTime au).
Definition pause (au : Audio) : Audio :=
  mkAudio true (volume au) (loop au) (audio_currentTime au).

(** The calls of [Utils.showNotification(message, type)]. *)
Inductive kind := info | success | warning | error.
Inductive message :=
| AnimationStarted | AnimationPaused
| MusicPlaying | MusicPaused | MusicRestarted | NoAudioAvailable
| VolumeIs (volumePercent : Z) | VolumeAtMaximum | VolumeAtMinimum
| LoopEnabled | LoopDisabled
| TextVisible | TextHidden | NoTextAvailable.

(** The page once it is set up (the visitor has clicked "Yes" once and
    [setupRenderer] has run): the animation object and what else the key
    handler touches. *)
Record page := mkPage {
  app : HeartAnimation.t;
  animationLoop : bool;      (* renderer.setAnimationLoop holds the render callback *)
  audio : option Audio;      (* this.audio, or null *)
  camera : Vector3;          (* camera.position *)
  heartText : option bool;   (* heartText.visible, or None while heartText is null *)
  notifications : list (message * kind)
}.

Definition set_app (h : HeartAnimation.t) (p : page) : page :=
  mkPage h (animationLoop p) (audio p) (camera p) (heartText p) (notifications p).
Definition set_animationLoop (v : bool) (p : page) : page :=
  mkPage (app p) v (audio p) (camera p) (heartText p) (notifications p).
Definition set_audio (au : Audio) (p : page) : page :=
  mkPage (app p) (animationLoop p) (Some au) (camera p) (heartText p) (notifications p).
Definition set_camera (v : Vector3) (p : page) : page :=
  mkPage (app p) (animationLoop p) (audio p) v (heartText p) (notifications p).
Definition set_heartText (v : bool) (p : page) : page :=
  mkPage (app p) (animationLoop p) (audio p) (camera p) (Some v) (notifications p).
Definition showNotification (m : message) (k : kind) (p : page) : page :=
  mkPage (app p) (animationLoop p) (audio p) (camera p) (heartText p)
    (notifications p ++ [(m, k)]).

(** [event.key], for the cases of the switch; ["h"] and ["H"], which only
    fade the music controls in and out, are left out, and [Other] is any
    key without a case. *)
Inductive key :=
| ArrowUp | ArrowDown | ArrowLeft | ArrowRight
| Space | KeyM | KeyR | KeyPlus | KeyMinus | KeyL | KeyT | Other.

(** [setupAudio()]: a paused element at 70% volume that loops. *)
Definition setupAudio (p : page) : page :=
  set_audio (mkAudio true (num 0.7) true 0) p.

Definition onKeyDown (rv : revision) (k : key) (p : page) : page :=
  match k with
  | ArrowUp =>
      set_camera (mkVector3 (x (camera p)) (y (camera p) + num 0.1) (z (camera p))) p
  | ArrowDown =>
      set_camera (mkVector3 (x (camera p)) (y (camera p) - num 0.1) (z (camera p))) p
  | ArrowLeft =>
      set_camera (mkVector3 (x (camera p) - num 0.1) (y (camera p)) (z (camera p))) p
  | ArrowRight =>
      set_camera (mkVector3 (x (camera p) + num 0.1) (y (camera p)) (z (camera p))) p
  | Space =>
      (* Toggle animation *)
      let p := set_app (HeartAnimation.set_isAnimating
                          (negb (HeartAnimation.isAnimating (app p))) (app p)) p in
      if HeartAnimation.isAnimating (app p) then
        showNotification AnimationStarted success (set_animationLoop true p)
      else
        showNotification AnimationPaused warning (set_animationLoop false p)
  | KeyM =>
      match audio p with
      | Some au =>
          if paused au then showNotification MusicPlaying success (set_audio (play au) p)
          else showNotification MusicPaused warning (set_audio (pause au) p)
      | None => showNotification NoAudioAvailable error p
      end
  | KeyR =>
      match audio p with
      | Some au =>
          showNotification MusicRestarted success
            (set_audio (play (mkAudio (paused au) (volume au) (loop au) 0)) p)
      | None => showNotification NoAudioAvailable error p
      end
  | KeyPlus =>
      match audio p with
      | Some au =>
          if volume au <? num 1.0 then
            let au := mkAudio (paused au) (Math_min (num 1.0) (volume au + num 0.1))
                        (loop au) (audio_currentTime au) in
            let volumePercent := Math_round (volume au * num 100) in
            showNotification (VolumeIs volumePercent) info (set_audio au p)
          else showNotification VolumeAtMaximum warning p
      | None => showNotification NoAudioAvailable error p
      end
  | KeyMinus =>
      match audio p with
      | Some au =>
          if volume au >? num 0.0 then
            let au := mkAudio (paused au) (Math_max (num 0.0) (volume au - num 0.1))
                        (loop au) (audio_currentTime au) in
            let volumePercent := Math_round (volume au * num 100) in
            showNotification (VolumeIs volumePercent) info (set_audio au p)
          else showNotification VolumeAtMinimum warning p
      | None => showNotification NoAudioAvailable error p
      end
  | KeyL =>
      match audio p with
      | Some au =>
          let au := mkAudio (paused au) (volume au) (negb (loop au))
                      (audio_currentTime au) in
          if loop au then showNotification LoopEnabled success (set_audio au p)
          else showNotification LoopDisabled warning (set_audio au p)
      | None => showNotification NoAudioAvailable error p
      end
  | KeyT =>
      match rv with
      | rev_000 =>
          match heartText p with
          | Some visible =>
              if negb visible
              then showNotification TextVisible success (set_heartText (negb visible) p)
              else showNotification TextHidden warning (set_heartText (negb visible) p)
          | None => showNotification NoTextAvailable error p
          end
      | rev_001 => p
      end
  | Other => p
  end.

(** One press of a key.  The set-up page has two [keydown] listeners that
    call [onKeyDown] on the same object, so a press runs it twice.  In
    part_001 they are [boundOnKeyDown], added by the constructor (and once
    more by [setupEventListeners], which adds nothing, the listener being
    the same), and the arrow function added by [setupRenderer].  In part_000
    [init()] runs in the constructor and again on DOMContentLoaded, so the
    "Yes" button has two click listeners, one click starts
    [startMainAnimation] twice, and [setupRenderer] adds its arrow function
    twice.  (The third listener of part_001, in [setupTransitionTriggers],
    acts only with Ctrl or Meta held.) *)
Definition keydown (rv : revision) (k : key) (p : page) : page :=
  onKeyDown rv k (onKeyDown rv k p).

(** What reaches the page: a press of a key, the callback of
    [requestAnimationFrame(animate)], or a turn of the loop installed by
    [renderer.setAnimationLoop], which calls [render] itself and lets its
    exceptions escape. *)
Inductive input :=
| Key (k : key)
| AnimationFrame (f : HeartAnimation.frame)
| LoopFrame (f : HeartAnimation.frame).

Definition handle (rv : revision) (p : page) (i : input) : page :=
  match i with
  | Key k => keydown rv k p
  | AnimationFrame f =>
      set_app (HeartAnimation.step rv (fun _ _ => 0) (app p)
                 (HeartAnimation.AnimationFrame f)) p
  | LoopFrame f =>
      if animationLoop p then set_app (HeartAnimation.render rv f (app p)).2 p else p
  end.

End Keyboard.

(** The volume of the audio element, if there is one, is between 0 and 1. *)
Definition volume_ok (p : Keyboard.page) : Prop :=
  match Keyboard.audio p with
  | Some au => 0 <= Keyboard.volume au <= 1
  | None => True
  end.

(** A page with the running sample object, its audio set up. *)
Definition sample_page : Keyboard.page :=
  Keyboard.setupAudio
    (Keyboard.mkPage Sample.running false None (mkVector3 0 0 (num 1.8)) None []).

(** ** The "No" button (handleNoClick of part_000 and of assets/js/main.js) *)

Module NoButton.

(** The number of clicks as a JavaScript number. *)
Definition of_nat (n : nat) : Qc := Q2Qc (inject_Z (Z.of_nat n)).

(** [noButton.textContent]: as the markup has it, or what the handler
    wrote, which is [undefined] when the index is past the messages. *)
Inductive textContent := Markup | Undefined | Text (s : string).

Definition written (o : option string) : textContent :=
  match o with Some s => Text s | None => Undefined end.

Record t := mk {
  noClickCount : nat;
  noText : textContent;
  yesScale : option Qc;             (* yesButton.style.transform = scale(...) *)
  yesPadding : option (Qc * Qc);    (* yesButton.style.padding = paddingY paddingX *)
  yesFontSize : option Qc;          (* yesButton.style.fontSize, in rem *)
  noTranslate : option (Qc * Qc);   (* noButton.style.transform = translate(...) *)
  noDisplayNone : bool              (* noButton.style.display = 'none' *)
}.

(** The state after the constructor, nothing styled yet. *)
Definition initial : t := mk 0 Markup None None None None false.

Module Part000.

Definition noMessages : list string :=
  [ "Không"; "Thật sự là không sao?"; "Suy nghĩ lại đi mò"; "Làm ơn";
    "Em chọn có điiiii"; "Có nhé? năn nỉ đó"; "Please say yes :(" ]%string.

(** [handleNoClick()]; [random1] and [random2] are the two results of
    [Math.random()]. *)
Definition handleNoClick (random1 random2 : Qc) (st : t) : t :=
  let noClickCount := S (noClickCount st) in
  let messageIndex := Nat.min noClickCount (length noMessages - 1) in
  let scaleFactor := 1 + of_nat noClickCount * num 0.3 in
  let paddingX := num 15 + of_nat noClickCount * num 10 in
  let paddingY := num 10 + of_nat noClickCount * num 5 in
  let fontSize := num 1.2 + of_nat noClickCount * num 0.15 in
  let randomX := (random1 - num 0.5) * num 200 in
  let randomY := (random2 - num 0.5) * num 200 in
  mk noClickCount
     (written (noMessages !! messageIndex))
     (Some scaleFactor)
     (Some (paddingY, paddingX))
     (Some fontSize)
     (Some (randomX, randomY))
     (if (length noMessages <? noClickCount)%nat then true else noDisplayNone st).

(** One click on the "No" button.  [init()] runs in the constructor and
    again on DOMContentLoaded, and each time [setupIntroLogic] adds a new
    arrow function as click listener, so a click runs [handleNoClick] twice;
    [draw1] and [draw2] are the random numbers of the two runs. *)
Definition onClick (draw1 draw2 : Qc * Qc) (st : t) : t :=
  handleNoClick draw2.1 draw2.2 (handleNoClick draw1.1 draw1.2 st).

End Part000.

Module MainJs.

Definition noMessages : list string :=
  [ "Thật sự là không sao?"; "Suy nghĩ lại đi mò"; "Làm ơn"; "Em chọn có điiiii" ]%string.

(** [handleNoClick()] of assets/js/main.js. *)
Definition handleNoClick (random1 random2 : Qc) (st : t) : t :=
  let noClickCount := S (noClickCount st) in
  let messageIndex := Nat.min (noClickCount - 1) (length noMessages - 1) in
  let scaleFactor := 1 + of_nat noClickCount * num 0.3 in
  let randomX := (random1 - num 0.5) * num 200 in
  let randomY := (random2 - num 0.5) * num 200 in
  mk noClickCount
     (written (noMessages !! messageIndex))
     (Some scaleFactor)
     (yesPadding st)
     (yesFontSize st)
     (Some (randomX, randomY))
     (noDisplayNone st).

End MainJs.

(** A series of runs of a handler, each with its two random numbers.  In
    assets/js/main.js, where [init()] runs once, these are the clicks. *)
Definition clicks (handler : Qc -> Qc -> t -> t) (draws : list (Qc * Qc)) : t :=
  fold_left (fun st d => handler d.1 d.2 st) draws initial.

(** A series of clicks in part_000, each with the random numbers of its
    two runs of the handler. *)
Definition clicks_000 (draws : list ((Qc * Qc) * (Qc * Qc))) : t :=
  fold_left (fun st d => Part000.onClick d.1 d.2 st) draws initial.

End NoButton.

(** ** The service worker (the first file of part_000) *)

Module ServiceWorker.

Definition CACHE_NAME : string := "heart-animation-v1".

Definition urlsToCache : list string :=
  [ "/heart-animation/";
    "/heart-animation/index.html";
    "/heart-animation/assets/css/style.css";
    "/heart-animation/assets/js/three.min.js";
    "/heart-animation/assets/js/main.js";
    "/heart-animation/assets/js/mesh-surface-sampler.js";
    "/heart-animation/assets/js/trackball-controls.js";
    "/heart-animation/assets/js/simplex-noise.js";
    "/heart-animation/assets/js/obj-loader.js";
    "/heart-animation/assets/js/gsap.min.js";
    "/heart-animation/assets/music/Goy Arachaporn.mp3" ]%string.

(** A response: whether its status is in the 200 range, and its body. *)
Record Response := mkResponse { ok : bool; body : string }.

(** [caches]: the named caches in the order of their creation, each a map
    from the URL of a GET request to a response. *)
Definition CacheStorage := list (string * gmap string Response).

(** What [fetch(url)] resolves to; [None] is a network error. *)
Definition Network := string -> option Response.

(** [caches.open(name)]: the cache of that name, created empty if there is
    none. *)
Definition open (name : string) (cs : CacheStorage) : CacheStorage :=
  if bool_decide (name ∈ cs.*1) then cs else cs ++ [(name, ∅)].

(** A change of the first cache called [name]. *)
Fixpoint update (name : string) (f : gmap string Response -> gmap string Response)
    (cs : CacheStorage) : CacheStorage :=
  match cs with
  | [] => []
  | (n, c) :: rest =>
      if decide (n = name) then (n, f c) :: rest else (n, c) :: update name f rest
  end.

(** The fetches of [cache.addAll(urls)]: all of them must answer with an
    [ok] response. *)
Definition fetchAll (net : Network) (urls : list string) : option (list (string * Response)) :=
  mapM (fun url => r ← net url; if ok r then Some (url, r) else None) urls.

Definition putAll (entries : list (string * Response)) (c : gmap string Response)
  : gmap string Response :=
  fold_left (fun c e => <[e.1 := e.2]> c) entries c.

(** [cache.addAll(urls)] on the cache called [name]: it stores every
    response, or rejects and stores none. *)
Definition addAll (net : Network) (name : string) (urls : list string)
    (cs : CacheStorage) : bool * CacheStorage :=
  match fetchAll net urls with
  | Some entries => (true, update name (putAll entries) cs)
  | None => (false, cs)
  end.

(** The install event: whether the promise given to [waitUntil] is
    fulfilled, and the caches after it. *)
Definition install (net : Network) (cs : CacheStorage) : bool * CacheStorage :=
  addAll net CACHE_NAME urlsToCache (open CACHE_NAME cs).

(** [caches.match(request)]: the first cache, in creation order, that has a
    response for the URL. *)
Fixpoint matchAll (cs : CacheStorage) (url : string) : option Response :=
  match cs with
  | [] => None
  | (_, c) :: rest =>
      match c !! url with
      | Some r => Some r
      | None => matchAll rest url
      end
  end.

(** What the fetch event answers with, and where it comes from. *)
Inductive served := FromCache (r : Response) | FromNetwork (o : option Response).

(** The fetch event: [response || fetch(event.request)]. *)
Definition onFetch (net : Network) (cs : CacheStorage) (url : string) : served :=
  match matchAll cs url with
  | Some response => FromCache response
  | None => FromNetwork (net url)
  end.

(** The activate event: every cache with another name is deleted. *)
Definition activate (cs : list (string * gmap string Response)) : CacheStorage :=
  filter (fun e => e.1 = CACHE_NAME) cs.

(** The cache called [name], empty if there is none. *)
Definition cache_of (name : string) (cs : CacheStorage) : gmap string Response :=
  default ∅ ((list_to_map cs : gmap string (gmap string Response)) !! name).

End ServiceWorker.

(** A network that answers every URL, one that is down, one without the
    music file, and the caches left by an older version of the worker. *)
Module WorkerSample.
Import ServiceWorker.

Definition online : Network := fun url => Some (mkResponse true url).
Definition offline : Network := fun _ => None.
Definition missing_music : Network := fun url =>
  if decide (url = "/heart-animation/assets/music/Goy Arachaporn.mp3")
  then Some (mkResponse false "Not Found") else Some (mkResponse true url).
Definition old_caches : CacheStorage :=
  [("heart-animation-v0", {["/heart-animation/" := mkResponse true "old page"]})].

End WorkerSample.

(** ** Utils.debounce and Utils.throttle *)

(** Both keep a private variable and set timers.  A timer is one-shot and
    has the id [setTimeout] returned; the page decides when a timer that is
    due fires, and never fires one early. *)

(** [due <= now]. *)
Definition is_due (due now : Qc) : bool := negb (now <? due).

Module Debounce.

(** A timer set by [setTimeout(later, wait)]: [later] holds the arguments
    of the call that set it. *)
Record timer (A : Type) := mkTimer { id : nat; due : Qc; args : A }.
Arguments mkTimer {A}.
Arguments id {A}.
Arguments due {A}.
Arguments args {A}.

(** The closure returned by [debounce(func, wait)] and its surroundings. *)
Record t (A : Type) := mk {
  timeout : option nat;      (* the variable [timeout]; [undefined] at first *)
  timers : list (timer A);   (* the timers that are set *)
  next : nat;                (* the id the next [setTimeout] returns *)
  calls : list (Qc * A)      (* the calls of [func]: when, and with what *)
}.
Arguments mk {A}.
Arguments timeout {A}.
Arguments timers {A}.
Arguments next {A}.
Arguments calls {A}.

Definition debounce (A : Type) : t A := mk None [] 0 [].

Definition clearTimeout {A} (i : option nat) (ts : list (timer A)) : list (timer A) :=
  match i with
  | Some i => filter (fun tm => id tm <> i) ts
  | None => ts
  end.

(** [executedFunction(...args)], called at time [now]. *)
Definition executedFunction {A} (wait now : Qc) (a : A) (s : t A) : t A :=
  let ts := clearTimeout (timeout s) (timers s) in
  mk (Some (next s)) (ts ++ [mkTimer (next s) (now + wait) a]) (S (next s)) (calls s).

(** The page fires timer [i] at time [now]: [later()] runs if the timer is
    set and due. *)
Definition fire {A} (now : Qc) (i : nat) (s : t A) : t A :=
  match find (fun tm => Nat.eqb (id tm) i) (timers s) with
  | Some tm =>
      if is_due (due tm) now then
        let ts := filter (fun tm => id tm <> i) (timers s) in
        mk (timeout s) (clearTimeout (timeout s) ts) (next s)
          (calls s ++ [(now, args tm)])
      else s
  | None => s
  end.

Inductive event (A : Type) :=
| Invoke (now : Qc) (a : A)
| Fire (now : Qc) (i : nat).
Arguments Invoke {A}.
Arguments Fire {A}.

Definition step {A} (wait : Qc) (s : t A) (e : event A) : t A :=
  match e with
  | Invoke now a => executedFunction wait now a s
  | Fire now i => fire now i s
  end.

Definition run {A} (wait : Qc) (evs : list (event A)) : t A :=
  fold_left (step wait) evs (debounce A).

Definition is_fire {A} (e : event A) : bool :=
  match e with Fire _ _ => true | Invoke _ _ => false end.

(** The event fires timer [i] at or after [due]. *)
Definition fires {A} (i : nat) (due : Qc) (e : event A) : bool :=
  match e with
  | Fire now j => Nat.eqb j i && is_due due now
  | Invoke _ _ => false
  end.

Definition time {A} (e : event A) : Qc :=
  match e with Invoke now _ => now | Fire now _ => now end.

(** A timer that is set is the one [timeout] names. *)
Definition named {A} (s : t A) : Prop :=
  Forall (fun tm => timeout s = Some (id tm)) (timers s).

End Debounce.

Module Throttle.

(** The closure returned by [throttle(func, limit)] and its surroundings;
    a timer is its id and when it is due. *)
Record t (A : Type) := mk {
  inThrottle : bool;         (* the variable [inThrottle]; [undefined] at first *)
  timers : list (nat * Qc);
  next : nat;
  calls : list (Qc * A)
}.
Arguments mk {A}.
Arguments inThrottle {A}.
Arguments timers {A}.
Arguments next {A}.
Arguments calls {A}.

Definition throttle (A : Type) : t A := mk false [] 0 [].

(** The returned function, called at time [now]. *)
Definition throttled {A} (limit now : Qc) (a : A) (s : t A) : t A :=
  if negb (inThrottle s) then
    mk true (timers s ++ [(next s, now + limit)]) (S (next s)) (calls s ++ [(now, a)])
  else s.

(** The page fires timer [i] at time [now]: [inThrottle = false]. *)
Definition fire {A} (now : Qc) (i : nat) (s : t A) : t A :=
  match find (fun tm => Nat.eqb tm.1 i) (timers s) with
  | Some tm =>
      if is_due tm.2 now then
        mk false (filter (fun tm => tm.1 <> i) (timers s)) (next s) (calls s)
      else s
  | None => s
  end.

Definition step {A} (limit : Qc) (s : t A) (e : Debounce.event A) : t A :=
  match e with
  | Debounce.Invoke now a => throttled limit now a s
  | Debounce.Fire now i => fire now i s
  end.

Definition run {A} (limit : Qc) (evs : list (Debounce.event A)) : t A :=
  fold_left (step limit) evs (throttle A).

(** The calls of the returned function in a run, in order. *)
Definition invocations {A} (evs : list (Debounce.event A)) : list (Qc * A) :=
  omap (fun e => match e with
                 | Debounce.Invoke now a => Some (now, a)
                 | Debounce.Fire _ _ => None
                 end) evs.

(** Successive entries are at least [limit] apart. *)
Fixpoint spaced {A} (limit : Qc) (l : list (Qc * A)) : Prop :=
  match l with
  | [] => True
  | c :: rest =>
      match rest with
      | [] => True
      | c' :: _ => c.1 + limit <= c'.1
      end /\ spaced limit rest
  end.

(** While throttled one timer is set, due [limit] after the last call of
    [func]; otherwise none is, and the last call is [limit] or more ago. *)
Definition paced {A} (limit now : Qc) (s : t A) : Prop :=
  spaced limit (calls s)
  /\ if inThrottle s
     then exists c i, last (calls s) = Some c /\ timers s = [(i, c.1 + limit)]
     else timers s = [] /\ forall c, last (calls s) = Some c -> c.1 + limit <= now.

End Throttle.

(** Events in the order of their times. *)
Fixpoint in_order {A} (now : Qc) (evs : list (Debounce.event A)) : Prop :=
  match evs with
  | [] => True
  | e :: rest => now <= Debounce.time e /\ in_order (Debounce.time e) rest
  end.

(** ** onHeartProgress and Utils.updateLoadingProgress *)

(** A number that need not be finite. *)
Inductive number := Finite (q : Qc) | Infinity | NaN.

(** [loaded / total] for the non-negative integers of a progress event. *)
Definition ratio (loaded total : nat) : number :=
  match total, loaded with
  | O, O => NaN
  | O, S _ => Infinity
  | S _, _ => Finite (Q2Qc (inject_Z (Z.of_nat loaded)) / Q2Qc (inject_Z (Z.of_nat total)))
  end.

(** [onHeartProgress(progress)]: the percentage it hands to
    [Utils.updateLoadingProgress]. *)
Definition onHeartProgress (loaded total : nat) : number :=
  match ratio loaded total with
  | Finite r =>
      let percent := Math_round (r * num 100) in
      Finite (num 95 + Q2Qc (inject_Z percent) * num 0.05)
  | Infinity => Infinity
  | NaN => NaN
  end.

(** The percentage [Utils.updateLoadingProgress] writes into the loading
    text: [Math.round(percent)]. *)
Definition loadingText (percent : number) : option Z :=
  match percent with
  | Finite q => Some (Math_round q)
  | _ => None
  end.

(** ** The fleeing "No" button (handleNoMouseOver of part_001) *)

Module NoMouseOver.

(** What [getBoundingClientRect()] gives, as far as it is read. *)
Record rect := mkRect { width : Qc; height : Qc }.

(** [noBtn.style.top] and [noBtn.style.left], in pixels. *)
Record style := mkStyle { top : Qc; left : Qc }.

(** [handleNoMouseOver()]; [random1] and [random2] are what the two calls
    of [Math.random()] return, in that order. *)
Definition handleNoMouseOver (random1 random2 : Qc) (containerRect btnRect : rect) : style :=
  let newTop := random1 * (height containerRect - height btnRect) in
  let newLeft := random2 * (width containerRect - width btnRect) in
  mkStyle newTop newLeft.

End NoMouseOver.
(** ** SparkPoint.update *)

Lemma clone_id (v : Vector3) : clone v = v.
Proof. by destruct v. Qed.

Lemma update_one (rv : revision) (beat : Beat) (s : SparkPoint.t) :
  SparkPoint.one (SparkPoint.update rv beat s)
  = Some (candidateNear (SparkPoint.simplex s) (SparkPoint.pos s) (a beat)).
Proof.
  unfold SparkPoint.update, candidateNear, NOISE_SCALE_AMPLITUDE; simpl.
  by rewrite clone_id, !Qcmult_1_r.
Qed.

Lemma update_two_000 (beat : Beat) (s : SparkPoint.t) :
  SparkPoint.two (SparkPoint.update rev_000 beat s)
  = Some (candidateFar_000 (SparkPoint.simplex s) (SparkPoint.pos s) (a beat)).
Proof.
  unfold SparkPoint.update, candidateFar_000, n2, NOISE_SCALE_AMPLITUDE; simpl.
  by rewrite clone_id.
Qed.

Lemma update_two_001 (beat : Beat) (s : SparkPoint.t) :
  SparkPoint.two (SparkPoint.update rev_001 beat s)
  = Some (candidateFar_001 (SparkPoint.simplex s) (SparkPoint.pos s) (a beat)).
Proof.
  unfold SparkPoint.update, candidateFar_001, n2; simpl.
  by rewrite clone_id.
Qed.

(** C3.  In both revisions [update] sets [one] to
    [p * (1.01 + (n1 + 1.5) * K * b)], with [n1 = noise4D(p.x, p.y, p.z, 0.1)]
    and [K = NOISE_SCALE * NOISE_AMPLITUDE]: the value is [candidateNear]
    of the noise function, the origin and the beat, and of nothing else
    (not of the revision, the colour, the jitter or an earlier [one]). *)
Theorem update_candidateNear (rv : revision) (beat : Beat) (s : SparkPoint.t) :
  let p := SparkPoint.pos s in
  let n1 := noise4D (SparkPoint.simplex s) (x p) (y p) (z p) (num 0.1) in
  let K := CONFIG.NOISE_SCALE * CONFIG.NOISE_AMPLITUDE in
  SparkPoint.one (SparkPoint.update rv beat s)
    = Some (multiplyScalar p (num 1.01 + (n1 + num 1.5) * K * a beat))
  /\ SparkPoint.one (SparkPoint.update rv beat s)
    = Some (candidateNear (SparkPoint.simplex s) p (a beat)).
Proof.
  intros p n1 K. split; apply update_one.
Qed.

(** C9.  The two revisions of [update] compute the same [one] for every
    input, compute [two] as [origin * (1.01 + (n2 + 1) * K * b)] (part_000)
    and as [origin * (1 + (n2 + 1) * (b + 0.3) - b * 1.2)] (part_001), and
    there is an input on which the two values of [two] differ. *)
Theorem update_revisions_differ_on_two :
  (forall beat s,
     SparkPoint.two (SparkPoint.update rev_000 beat s)
     = Some (candidateFar_000 (SparkPoint.simplex s) (SparkPoint.pos s) (a beat)))
  /\ (forall beat s,
     SparkPoint.two (SparkPoint.update rev_001 beat s)
     = Some (candidateFar_001 (SparkPoint.simplex s) (SparkPoint.pos s) (a beat)))
  /\ (exists beat s,
     SparkPoint.two (SparkPoint.update rev_000 beat s)
     <> SparkPoint.two (SparkPoint.update rev_001 beat s))
  /\ (forall beat s,
     SparkPoint.one (SparkPoint.update rev_000 beat s)
     = SparkPoint.one (SparkPoint.update rev_001 beat s)).
Proof.
  split; [exact update_two_000|].
  split; [exact update_two_001|].
  split.
  - exists Fixture.still, Fixture.on_axis.
    rewrite update_two_000, update_two_001. intros H.
    apply (f_equal (fun o => from_option (fun v => this (z v)) 0%Q o)) in H.
    vm_compute in H. discriminate H.
  - intros beat s. by rewrite !update_one.
Qed.

(** C10.  Two sparks with the same origin and the same noise function get,
    for the same beat, the same [one] and the same [two], whatever their
    [rand] (and colour) are; and [update] leaves [pos], [color] and [rand]
    as they were. *)
Theorem update_ignores_rand (rv : revision) (beat : Beat) (s1 s2 : SparkPoint.t) :
  SparkPoint.pos s1 = SparkPoint.pos s2 ->
  SparkPoint.simplex s1 = SparkPoint.simplex s2 ->
  SparkPoint.one (SparkPoint.update rv beat s1) = SparkPoint.one (SparkPoint.update rv beat s2)
  /\ SparkPoint.two (SparkPoint.update rv beat s1) = SparkPoint.two (SparkPoint.update rv beat s2)
  /\ SparkPoint.pos (SparkPoint.update rv beat s1) = SparkPoint.pos s1
  /\ SparkPoint.color (SparkPoint.update rv beat s1) = SparkPoint.color s1
  /\ SparkPoint.rand (SparkPoint.update rv beat s1) = SparkPoint.rand s1.
Proof.
  intros Hpos Hsx. split; [|split; [|done]].
  - by rewrite !update_one, Hpos, Hsx.
  - destruct rv.
    + by rewrite !update_two_000, Hpos, Hsx.
    + by rewrite !update_two_001, Hpos, Hsx.
Qed.

Lemma update_ignores_rand_witness :
  SparkPoint.rand Fixture.on_axis <> SparkPoint.rand Fixture.on_axis'
  /\ SparkPoint.one (SparkPoint.update rev_001 Fixture.still Fixture.on_axis)
     = SparkPoint.one (SparkPoint.update rev_001 Fixture.still Fixture.on_axis')
  /\ SparkPoint.two (SparkPoint.update rev_001 Fixture.still Fixture.on_axis)
     = SparkPoint.two (SparkPoint.update rev_001 Fixture.still Fixture.on_axis').
Proof.
  split; [by vm_compute|].
  destruct (update_ignores_rand rev_001 Fixture.still Fixture.on_axis Fixture.on_axis'
              eq_refl eq_refl) as (H1 & H2 & _).
  exact (conj H1 H2).
Defined.

(** ** Typed-array stores *)

Lemma length_write3 (arr : list Qc) (i : nat) (u v w : Qc) :
  length (write3 arr i u v w) = length arr.
Proof. unfold write3. by rewrite !length_insert. Qed.

(** Inside the array, three stores at the end of a filled prefix append
    three numbers to it. *)
Lemma take_write3 (arr : list Qc) (i : nat) (u v w : Qc) :
  (i + 3 <= length arr)%nat ->
  take (i + 3) (write3 arr i u v w) = take i arr ++ [u; v; w].
Proof.
  unfold write3. revert arr. induction i as [|i IH]; intros arr Hlen.
  - destruct arr as [|a0 [|a1 [|a2 arr]]]; simpl in *; try lia. done.
  - destruct arr as [|a0 arr]; simpl in *; [lia|].
    f_equal. apply IH. lia.
Qed.

(** ** updateParticles *)

Section Packer.
Import HeartAnimation.

Implicit Types (c : cursor) (s : SparkPoint.t) (sp : list SparkPoint.t).

Lemma in_band_code (jitter zc : Qc) :
  (MAX_Z_RATE_Z + jitter >? zc) && (zc >? - MAX_Z_RATE_Z - jitter) = in_band jitter zc.
Proof. unfold in_band, gtb, ltb, MAX_Z_RATE_Z. apply andb_comm. Qed.

(** The loop body never throws: [update] has just set [one] and [two]. *)
Lemma examine_eq rv beat c s :
  examine rv beat c s
  = (Normal, SparkPoint.update rv beat s,
     pushes c (accepted rv beat s) (SparkPoint.color s)).
Proof.
  unfold examine, accepted, pushes. cbv zeta.
  rewrite update_one, !in_band_code.
  assert (SparkPoint.two (SparkPoint.update rv beat s)
          = Some (candidateFar rv (SparkPoint.simplex s) (SparkPoint.pos s) (a beat)))
    as -> by (destruct rv; [apply update_two_000 | apply update_two_001]).
  cbv beta iota.
  change (SparkPoint.rand (SparkPoint.update rv beat s)) with (SparkPoint.rand s).
  change (SparkPoint.color (SparkPoint.update rv beat s)) with (SparkPoint.color s).
  by destruct (in_band (SparkPoint.rand s) _), (in_band (SparkPoint.rand s * 2) _).
Qed.

Lemma pack_eq rv beat sp c :
  pack rv beat sp c
  = (Normal, SparkPoint.update rv beat <$> sp, fill rv beat sp c).
Proof.
  unfold fill. revert c. induction sp as [|s sp IH]; intros c; [reflexivity|].
  cbn [pack fold_left]. by rewrite examine_eq, IH.
Qed.

Lemma accepted_length rv beat s : (length (accepted rv beat s) <= 2)%nat.
Proof.
  unfold accepted. rewrite length_app.
  destruct (in_band (SparkPoint.rand s) _), (in_band (SparkPoint.rand s * 2) _);
    simpl; lia.
Qed.

Lemma pushes_posIdx c vs col :
  posIdx (pushes c vs col) = (posIdx c + 3 * length vs)%nat.
Proof.
  unfold pushes. revert c. induction vs as [|v vs IH]; intros c; simpl; [lia|].
  rewrite IH. simpl. lia.
Qed.

Lemma pushes_colorIdx c vs col :
  colorIdx (pushes c vs col) = (colorIdx c + 3 * length vs)%nat.
Proof.
  unfold pushes. revert c. induction vs as [|v vs IH]; intros c; simpl; [lia|].
  rewrite IH. simpl. lia.
Qed.

Lemma pushes_length c vs col :
  length (buf_positions (pushes c vs col)) = length (buf_positions c)
  /\ length (buf_colors (pushes c vs col)) = length (buf_colors c).
Proof.
  unfold pushes. revert c. induction vs as [|v vs IH]; intros c; simpl; [done|].
  destruct (IH (push c v col)) as [-> ->]. simpl.
  by rewrite !length_write3.
Qed.

(** Within the capacity of the buffers the stores extend the filled prefix. *)
Lemma pushes_take c vs col :
  (posIdx c + 3 * length vs <= length (buf_positions c))%nat ->
  (colorIdx c + 3 * length vs <= length (buf_colors c))%nat ->
  take (posIdx (pushes c vs col)) (buf_positions (pushes c vs col))
  = take (posIdx c) (buf_positions c) ++ (vs ≫= coords)
  /\ take (colorIdx (pushes c vs col)) (buf_colors (pushes c vs col))
  = take (colorIdx c) (buf_colors c) ++ (vs ≫= fun _ => channels col).
Proof.
  unfold pushes. revert c. induction vs as [|v vs IH]; intros c Hp Hc; simpl in *.
  - by rewrite !app_nil_r.
  - destruct (IH (push c v col)) as [-> ->]; simpl;
      rewrite ?length_write3; try lia.
    rewrite !take_write3 by lia.
    by rewrite <- !app_assoc.
Qed.

Lemma bind3_length {A} (f : A -> list Qc) (vs : list A) :
  (forall v, length (f v) = 3%nat) -> length (vs ≫= f) = (3 * length vs)%nat.
Proof.
  intros Hf. induction vs as [|v vs IH]; [done|].
  rewrite bind_cons, length_app, Hf, IH. simpl. lia.
Qed.

Lemma packed_positions_length rv beat sp :
  length (packed_positions rv beat sp) = (3 * length (sp ≫= accepted rv beat))%nat.
Proof.
  unfold packed_positions. induction sp as [|s sp IH]; [done|].
  rewrite !bind_cons, !length_app, IH, bind3_length by done. lia.
Qed.

Lemma packed_colors_length rv beat sp :
  length (packed_colors rv beat sp) = (3 * length (sp ≫= accepted rv beat))%nat.
Proof.
  unfold packed_colors. induction sp as [|s sp IH]; [done|].
  rewrite !bind_cons, !length_app, IH, bind3_length by done. lia.
Qed.

Lemma accepted_total rv beat sp :
  (length (sp ≫= accepted rv beat) <= 2 * length sp)%nat.
Proof.
  induction sp as [|s sp IH]; [done|].
  rewrite bind_cons, length_app. pose proof (accepted_length rv beat s).
  cbn [length]. lia.
Qed.

Lemma fill_idx rv beat sp c :
  posIdx (fill rv beat sp c) = (posIdx c + 3 * length (sp ≫= accepted rv beat))%nat
  /\ colorIdx (fill rv beat sp c) = (colorIdx c + 3 * length (sp ≫= accepted rv beat))%nat.
Proof.
  unfold fill. revert c. induction sp as [|s sp IH]; intros c; [simpl; lia|].
  rewrite bind_cons. cbn [fold_left].
  destruct (IH (pushes c (accepted rv beat s) (SparkPoint.color s))) as [-> ->].
  rewrite pushes_posIdx, pushes_colorIdx, length_app. lia.
Qed.

Lemma fill_length rv beat sp c :
  length (buf_positions (fill rv beat sp c)) = length (buf_positions c)
  /\ length (buf_colors (fill rv beat sp c)) = length (buf_colors c).
Proof.
  unfold fill. revert c. induction sp as [|s sp IH]; intros c; [done|].
  cbn [fold_left].
  destruct (IH (pushes c (accepted rv beat s) (SparkPoint.color s))) as [-> ->].
  apply pushes_length.
Qed.

(** Within the capacity of the buffers, a pass extends the filled prefix by
    the accepted candidates, spark after spark. *)
Lemma fill_take rv beat sp c :
  (posIdx c + 6 * length sp <= length (buf_positions c))%nat ->
  (colorIdx c + 6 * length sp <= length (buf_colors c))%nat ->
  take (posIdx (fill rv beat sp c)) (buf_positions (fill rv beat sp c))
  = take (posIdx c) (buf_positions c) ++ packed_positions rv beat sp
  /\ take (colorIdx (fill rv beat sp c)) (buf_colors (fill rv beat sp c))
  = take (colorIdx c) (buf_colors c) ++ packed_colors rv beat sp.
Proof.
  unfold fill, packed_positions, packed_colors.
  revert c. induction sp as [|s sp IH]; intros c Hp Hc.
  - simpl. by rewrite !app_nil_r.
  - rewrite !bind_cons. cbn [fold_left]. simpl length in Hp, Hc.
    pose proof (accepted_length rv beat s) as Hacc.
    pose proof (pushes_length c (accepted rv beat s) (SparkPoint.color s)) as [Hlp Hlc].
    destruct (IH (pushes c (accepted rv beat s) (SparkPoint.color s))) as [-> ->];
      rewrite ?pushes_posIdx, ?pushes_colorIdx, ?Hlp, ?Hlc; try lia.
    destruct (pushes_take c (accepted rv beat s) (SparkPoint.color s)) as [Hq1 Hq2];
      try lia.
    rewrite pushes_posIdx in Hq1. rewrite pushes_colorIdx in Hq2.
    rewrite Hq1, Hq2. by rewrite <- !app_assoc.
Qed.

Lemma updateParticles_eq rv st :
  updateParticles rv st
  = let c := fill rv (beat st) (spikes st) (mkCursor (positions st) (colors st) 0 0) in
    (Normal,
     set_attributes (posIdx c) (colorIdx c)
       (set_particles (SparkPoint.update rv (beat st) <$> spikes st)
          (buf_positions c) (buf_colors c) st)).
Proof. unfold updateParticles. by rewrite pack_eq. Qed.

End Packer.

(** ** Loops over a position array *)

Section Stride.
Variables f g h : nat -> Qc.


Lemma stride_length (idxs : list nat) (vs : list Qc) :
  length (fold_left (stride_body f g h) idxs vs) = length vs.
Proof.
  revert vs. induction idxs as [|i idxs IH]; intros vs; simpl; [done|].
  rewrite IH. apply length_write3.
Qed.

(** After the first [n] rounds the indices below [3n] hold what was stored
    for them and the others are untouched. *)
Lemma stride_lookup (n : nat) (vs : list Qc) (j : nat) :
  fold_left (stride_body f g h) ((fun k => 3 * k)%nat <$> seq 0 n) vs !! j
  = if decide (j < 3 * n /\ j < length vs)%nat then Some (stored f g h j) else vs !! j.
Proof.
  induction n as [|n IH].
  - done.
  - rewrite seq_S, fmap_app, fold_left_app.
    cbn [fmap list_fmap fold_left]. rewrite Nat.add_0_l.
    unfold stride_body at 1, write3. rewrite !list_lookup_insert, !length_insert, IH.
    rewrite stride_length.
    unfold stored.
    repeat case_decide; try lia; try done.
    + replace (j mod 3)%nat with 2%nat by lia.
      by replace (3 * (j / 3))%nat with (3 * n)%nat by lia.
    + replace (j mod 3)%nat with 1%nat by lia.
      by replace (3 * (j / 3))%nat with (3 * n)%nat by lia.
    + replace (j mod 3)%nat with 0%nat by lia.
      by replace (3 * (j / 3))%nat with (3 * n)%nat by lia.
Qed.

(** The whole loop overwrites the array: what it leaves depends on the
    length of the array only. *)
Lemma stride_tabulate (vs : list Qc) :
  fold_left (stride_body f g h) (stride3 (length vs)) vs = stored f g h <$> seq 0 (length vs).
Proof.
  apply list_eq. intros j. unfold stride3. rewrite stride_lookup.
  rewrite list_lookup_fmap.
  destruct (decide (j < length vs)%nat) as [Hlt|Hge].
  - rewrite lookup_seq_lt by done. cbn [fmap option_fmap option_map].
    case_decide; [done | lia].
  - rewrite (lookup_ge_None_2 (seq 0 (length vs))) by (rewrite length_seq; lia).
    cbn [fmap option_fmap option_map].
    case_decide; [lia|]. apply lookup_ge_None_2. lia.
Qed.

Lemma vertex_stored (len k : nat) :
  (3 * k + 2 < len)%nat ->
  vertex (stored f g h <$> seq 0 len) k
  = Some (mkVector3 (f (3 * k)%nat) (g (3 * k)%nat) (h (3 * k)%nat)).
Proof.
  intros Hk. unfold vertex.
  rewrite !list_lookup_fmap, !lookup_seq_lt by lia.
  cbn [fmap option_fmap option_map mbind option_bind]. unfold stored.
  replace ((0 + 3 * k) mod 3)%nat with 0%nat by lia.
  replace ((0 + (3 * k + 1)) mod 3)%nat with 1%nat by lia.
  replace ((0 + (3 * k + 2)) mod 3)%nat with 2%nat by lia.
  replace (3 * ((0 + 3 * k) / 3))%nat with (3 * k)%nat by lia.
  replace (3 * ((0 + (3 * k + 1)) / 3))%nat with (3 * k)%nat by lia.
  by replace (3 * ((0 + (3 * k + 2)) / 3))%nat with (3 * k)%nat by lia.
Qed.
End Stride.

Lemma vertex_Some (arr : list Qc) (k : nat) (p : Vector3) :
  vertex arr k = Some p ->
  arr !! (3 * k)%nat = Some (x p)
  /\ arr !! (3 * k + 1)%nat = Some (y p)
  /\ arr !! (3 * k + 2)%nat = Some (z p).
Proof.
  unfold vertex. intros H.
  destruct (arr !! (3 * k)%nat) as [u|]; [|done].
  destruct (arr !! (3 * k + 1)%nat) as [v|]; [|done].
  destruct (arr !! (3 * k + 2)%nat) as [w|]; [|done].
  simpl in H. by injection H as <-.
Qed.

Lemma origin_at_vertex (oh : list Qc) (k : nat) (p : Vector3) :
  vertex oh k = Some p -> origin_at oh (3 * k) = p.
Proof.
  intros (Hx & Hy & Hz)%vertex_Some. unfold origin_at, read.
  rewrite Hx, Hy, Hz. by destruct p.
Qed.

(** ** The mesh displacement *)

Lemma displaced_length scale oh len : length (displaced scale oh len) = len.
Proof. unfold displaced. by rewrite length_fmap, length_seq. Qed.

Lemma vertex_displaced scale oh len k p :
  vertex oh k = Some p -> (3 * k + 2 < len)%nat ->
  vertex (displaced scale oh len) k = Some (multiplyScalar p (scale p)).
Proof.
  intros Hp Hk. unfold displaced. rewrite vertex_stored by done.
  by rewrite (origin_at_vertex _ _ _ Hp).
Qed.

Lemma vertex_lt (arr : list Qc) (k : nat) (p : Vector3) :
  vertex arr k = Some p -> (3 * k + 2 < length arr)%nat.
Proof. intros (_ & _ & Hz)%vertex_Some. by apply lookup_lt_Some in Hz. Qed.

Lemma displace_eq rv sx beat time oh vs :
  HeartAnimation.displace rv sx beat time oh vs
  = displaced (scale_code rv sx beat time) oh (length vs).
Proof.
  unfold displaced. rewrite <- stride_tabulate. reflexivity.
Qed.

Lemma main_animate_eq now (m : Main.t) :
  Main.isAnimating m = true ->
  Main.animate now m
  = Main.mk true
      (displaced (fun p => scale_main (Main.simplex m) p (now * num 0.000625)
                             (a (Main.beat m)))
         (Main.originHeart m) (length (Main.heart m)))
      true (Main.originHeart m) (Main.simplex m) (Main.beat m).
Proof.
  intros Ha. unfold Main.animate, displaced. rewrite Ha. simpl negb. cbv iota.
  rewrite <- stride_tabulate. reflexivity.
Qed.

Lemma scale_code_spec rv sx beat time p :
  scale_code rv sx beat time p = scale_spec sx p (timeFactor rv time) beat.
Proof. unfold scale_code, scale_spec, NOISE_SCALE_AMPLITUDE. ring. Qed.

Lemma updateHeartGeometry_loaded rv time st vs oh :
  HeartAnimation.heart st = Some vs ->
  HeartAnimation.originHeart st = Some oh ->
  HeartAnimation.updateHeartGeometry rv time st
  = (Normal,
     HeartAnimation.set_needsUpdate true
       (HeartAnimation.set_heart
          (displaced (scale_code rv (HeartAnimation.simplex st)
                        (a (HeartAnimation.beat st)) time) oh (length vs)) st)).
Proof.
  intros Hh Ho. unfold HeartAnimation.updateHeartGeometry.
  by rewrite Hh, Ho, displace_eq.
Qed.

(** ** Methods and the properties they keep *)

Section Frames.
Import HeartAnimation.

Lemma preserves_ret P : preserves P ret.
Proof. by intros st. Qed.

Lemma preserves_throw P e : preserves P (throw e).
Proof. by intros st. Qed.

Lemma preserves_assign P f : (forall st, P st -> P (f st)) -> preserves P (assign f).
Proof. intros Hf st. apply Hf. Qed.

Lemma preserves_andThen P m1 m2 :
  preserves P m1 -> preserves P m2 -> preserves P (andThen m1 m2).
Proof.
  intros H1 H2 st HP. unfold andThen. specialize (H1 st HP).
  destruct (m1 st) as [[|e] st']; [by apply H2 | done].
Qed.

Lemma preserves_tryCatch P m handler :
  preserves P m -> (forall e, preserves P (handler e)) -> preserves P (tryCatch m handler).
Proof.
  intros H1 H2 st HP. unfold tryCatch. specialize (H1 st HP).
  destruct (m st) as [[|e] st']; [done | by apply H2].
Qed.

(** Properties that do not look at the sparks, the buffers or the views
    are kept by [updateParticles]. *)
Lemma preserves_updateParticles (P : t -> Prop) rv :
  (forall sp ps cs st, P st -> P (set_particles sp ps cs st)) ->
  (forall pe ce st, P st -> P (set_attributes pe ce st)) ->
  preserves P (updateParticles rv).
Proof.
  intros Hsp Hat st HP. rewrite updateParticles_eq. cbv zeta. cbn [snd].
  by apply Hat, Hsp.
Qed.

Lemma preserves_updateControls P `{!RenderStable P} rv : preserves P (updateControls rv).
Proof.
  destruct rv; [apply preserves_ret | apply preserves_assign, stable_needsUpdate].
Qed.

Lemma preserves_rendererRender P `{!RenderStable P} f : preserves P (rendererRender f).
Proof.
  unfold rendererRender. destruct (rendererThrows f);
    [apply preserves_throw | apply preserves_assign, stable_emit].
Qed.

Lemma preserves_render P `{!RenderStable P} rv f : preserves P (render rv f).
Proof.
  intros st HP. unfold render.
  destruct (negb (isAnimating st) || negb (bool_decide (is_Some (heart st)))); [done|].
  destruct (documentHidden f); [done|].
  revert st HP. apply preserves_tryCatch; [|intros e; apply preserves_throw].
  repeat apply preserves_andThen.
  - apply stable_packer.
  - apply stable_geometry.
  - by apply preserves_updateControls.
  - by apply preserves_rendererRender.
Qed.

(** What [animate] does when the loop is running and the frame is not
    skipped. *)
Lemma animate_rendering rv f st :
  isAnimating st = true ->
  (currentTime f - lastRenderTime st <? CONFIG.FRAME_SKIP_THRESHOLD) = false ->
  animate rv f st
  = match render rv f st with
    | (Normal, st1) =>
        (Normal, set_pendingFrame true (set_lastRenderTime (currentTime f) st1))
    | (Thrown _, st1) => (Normal, emit ShowError (set_isAnimating false st1))
    end.
Proof.
  intros Ha Hd. unfold animate. rewrite Ha, Hd. cbn [negb]. cbv iota.
  unfold andThen. by destruct (render rv f st) as [[|e] st1].
Qed.

Lemma animate_skipping rv f st :
  isAnimating st = true ->
  (currentTime f - lastRenderTime st <? CONFIG.FRAME_SKIP_THRESHOLD) = true ->
  animate rv f st = (Normal, set_pendingFrame true st).
Proof. intros Ha Hd. unfold animate. by rewrite Ha, Hd. Qed.

Lemma animate_stopped rv f st :
  isAnimating st = false -> animate rv f st = (Normal, st).
Proof. intros Ha. unfold animate. by rewrite Ha. Qed.

Lemma preserves_animate P `{!LoopStable P} rv f : preserves P (animate rv f).
Proof.
  intros st HP.
  destruct (isAnimating st) eqn:Ha; [|by rewrite animate_stopped].
  destruct (currentTime f - lastRenderTime st <? CONFIG.FRAME_SKIP_THRESHOLD) eqn:Hd.
  - rewrite animate_skipping by done. by apply stable_pendingFrame.
  - rewrite animate_rendering by done.
    pose proof (preserves_render P rv f st HP) as Hr.
    destruct (render rv f st) as [[|e] st1]; cbn [snd] in *.
    + by apply stable_pendingFrame, stable_lastRenderTime.
    + by apply stable_emit, stable_isAnimating.
Qed.

Lemma preserves_startAnimation P `{!LoopStable P} now : preserves P (startAnimation now).
Proof.
  unfold startAnimation, requestAnimationFrame.
  repeat apply preserves_andThen; apply preserves_assign; intros st HP.
  - by apply stable_isAnimating.
  - by apply stable_lastRenderTime.
  - by apply stable_pendingFrame.
Qed.
End Frames.

(** ** The capacity of the buffers *)

Section Capacity.
Import HeartAnimation.

#[local] Instance capacity_inv_render : RenderStable capacity_inv.
Proof.
  split; try done.
  - intros rv st (Hp & Hc & Hs). rewrite updateParticles_eq.
    destruct (fill_length rv (beat st) (spikes st)
                (mkCursor (positions st) (colors st) 0 0)) as [Hfp Hfc].
    split; [exact (eq_trans Hfp Hp) | split; [exact (eq_trans Hfc Hc)|]].
    change (length (SparkPoint.update rv (beat st) <$> spikes st)
            <= CONFIG.PARTICLE_COUNT)%nat.
    by rewrite length_fmap.
  - intros rv time st HP. unfold updateHeartGeometry.
    destruct (heart st) as [[|u vs]|], (originHeart st); exact HP.
Qed.

#[local] Instance capacity_inv_loop : LoopStable capacity_inv.
Proof. split; [apply _ | done..]. Qed.

Lemma capacity_inv_step rv value st ev :
  capacity_inv st -> capacity_inv (step rv value st ev).
Proof.
  intros HP. destruct ev as [vs draws now|now|f]; cbn [step].
  - destruct HP as (Hp & Hc & Hs). split; [exact Hp | split; [exact Hc|]].
    change (length ((fun i => SparkPoint.new (draws i) (simplex st))
                      <$> seq 0 CONFIG.PARTICLE_COUNT) <= CONFIG.PARTICLE_COUNT)%nat.
    by rewrite length_fmap, length_seq.
  - unfold gsapTick. by destruct (timeline st).
  - destruct (pendingFrame st); [|done].
    by apply (preserves_animate capacity_inv).
Qed.

Lemma capacity_inv_run rv value evs st :
  capacity_inv st -> capacity_inv (run rv value evs st).
Proof.
  unfold run. revert st. induction evs as [|ev evs IH]; intros st HP; [done|].
  apply IH. by apply capacity_inv_step.
Qed.

Lemma capacity_inv_start rv REDUCED_MOTION sx :
  capacity_inv (startMainAnimation rv REDUCED_MOTION (new rv sx)).2.
Proof.
  destruct rv, REDUCED_MOTION;
    (split; [exact (length_replicate _ _)
            | split; [exact (length_replicate _ _) | exact (Nat.le_0_l _)]]).
Qed.

(** C4.  A pass of [updateParticles] over the [N] sparks returns, and the
    end [n] of the two views it hands to the renderer is the same for
    positions and colours, is a multiple of 3 and is at most [2 * 3 * N];
    each spark examined moves both write indices by 0, 3 or 6; with
    buffers of [6 * N] floats or more the two views hold exactly the [n]
    floats stored by the pass; and the buffers are that large in every
    state the object reaches from its constructor. *)
Theorem updateParticles_filled_length rv st :
  (forall REDUCED_MOTION sx value evs,
     let reached :=
       run rv value evs (startMainAnimation rv REDUCED_MOTION (new rv sx)).2 in
     (6 * length (spikes reached) <= length (positions reached))%nat
     /\ (6 * length (spikes reached) <= length (colors reached))%nat)
  /\ exists st' n,
    updateParticles rv st = (Normal, st')
    /\ position_attribute st' = Some n
    /\ color_attribute st' = Some n
    /\ (3 | n)%nat
    /\ (n <= 2 * 3 * length (spikes st))%nat
    /\ (forall beat c s, exists s' c' k,
          examine rv beat c s = (Normal, s', c')
          /\ (k = 0 \/ k = 3 \/ k = 6)%nat
          /\ posIdx c' = (posIdx c + k)%nat
          /\ colorIdx c' = (colorIdx c + k)%nat)
    /\ ((6 * length (spikes st) <= length (positions st))%nat ->
        (6 * length (spikes st) <= length (colors st))%nat ->
        exposed_positions st' = Some (packed_positions rv (beat st) (spikes st))
        /\ exposed_colors st' = Some (packed_colors rv (beat st) (spikes st))
        /\ length (packed_positions rv (beat st) (spikes st)) = n
        /\ length (packed_colors rv (beat st) (spikes st)) = n).
Proof.
  split.
  { intros rm sx value evs reached.
    destruct (capacity_inv_run rv value evs _ (capacity_inv_start rv rm sx))
      as (Hp & Hc & Hs).
    fold reached in Hp, Hc, Hs. lia. }
  set (c0 := mkCursor (positions st) (colors st) 0 0).
  destruct (fill_idx rv (beat st) (spikes st) c0) as [Hp Hc].
  change (posIdx c0) with 0%nat in Hp. change (colorIdx c0) with 0%nat in Hc.
  rewrite Nat.add_0_l in Hp, Hc.
  eexists _, (3 * length (spikes st ≫= accepted rv (beat st)))%nat.
  split; [apply updateParticles_eq|]. fold c0. cbv zeta.
  split; [cbn [set_attributes position_attribute]; by rewrite Hp|].
  split; [cbn [set_attributes color_attribute]; by rewrite Hc|].
  split; [by exists (length (spikes st ≫= accepted rv (beat st))); lia|].
  split; [pose proof (accepted_total rv (beat st) (spikes st)); lia|].
  split.
  - intros beat c s. rewrite examine_eq.
    exists (SparkPoint.update rv beat s), (pushes c (accepted rv beat s) (SparkPoint.color s)),
      (3 * length (accepted rv beat s))%nat.
    split; [done|]. rewrite pushes_posIdx, pushes_colorIdx.
    pose proof (accepted_length rv beat s). split; [lia|done].
  - intros Hcp Hcc.
    destruct (fill_take rv (beat st) (spikes st) c0) as [Ht1 Ht2]; [simpl; lia..|].
    rewrite Hp in Ht1. rewrite Hc in Ht2.
    change (take (posIdx c0) (buf_positions c0)) with (@nil Qc) in Ht1.
    change (take (colorIdx c0) (buf_colors c0)) with (@nil Qc) in Ht2.
    unfold exposed_positions, exposed_colors.
    cbn [set_attributes set_particles position_attribute color_attribute
         positions colors].
    rewrite Hp, Hc. cbn [fmap option_fmap option_map].
    rewrite Ht1, Ht2.
    by rewrite packed_positions_length, packed_colors_length.
Qed.
End Capacity.

(** ** The beat under reduced motion *)

Section Beat.
Import HeartAnimation.

#[local] Instance beat_pinned_render v : RenderStable (beat_pinned v).
Proof.
  split; try done; [by intros rv; apply preserves_updateParticles|].
  intros rv time st HP. unfold updateHeartGeometry.
  destruct (heart st) as [[|u vs]|], (originHeart st); done.
Qed.

#[local] Instance beat_pinned_loop v : LoopStable (beat_pinned v).
Proof. split; [apply _ | done..]. Qed.

Lemma beat_pinned_step v rv value st ev :
  beat_pinned v st -> beat_pinned v (step rv value st ev).
Proof.
  intros HP. destruct ev as [vs draws now|now|f]; cbn [step].
  - revert st HP. unfold onHeartLoaded, initParticles.
    repeat apply preserves_andThen; by apply preserves_assign.
  - unfold gsapTick. destruct HP as [Htl Hb]. by rewrite Htl.
  - destruct (pendingFrame st); [|done].
    by apply (preserves_animate (beat_pinned v)).
Qed.

Lemma beat_pinned_run v rv value evs st :
  beat_pinned v st -> beat_pinned v (run rv value evs st).
Proof.
  unfold run. revert st. induction evs as [|ev evs IH]; intros st HP; [done|].
  apply IH. by apply beat_pinned_step.
Qed.

Lemma setupAnimation_reduced rv st :
  timeline st = None ->
  beat_pinned (num 0.3 * CONFIG.BEAT_MAX_VALUE) (setupAnimation rv true st).2.
Proof.
  intros Htl. split; [done|]. cbn. apply Qcmult_comm.
Qed.

(** C7.  With the reduced-motion preference set, [setupAnimation] stores
    [0.3 * BEAT_MAX_VALUE] in [beat.a] and creates no timeline; whatever
    then happens (the model loading, gsap ticking, any number of animation
    frames, rendered, skipped or failing), no timeline exists and [beat.a]
    is still [0.3 * BEAT_MAX_VALUE]. *)
Theorem reduced_motion_beat_constant rv sx value evs :
  let st0 := (startMainAnimation rv true (new rv sx)).2 in
  timeline st0 = None
  /\ a (beat st0) = num 0.3 * CONFIG.BEAT_MAX_VALUE
  /\ timeline (run rv value evs st0) = None
  /\ a (beat (run rv value evs st0)) = num 0.3 * CONFIG.BEAT_MAX_VALUE.
Proof.
  intros st0.
  assert (beat_pinned (num 0.3 * CONFIG.BEAT_MAX_VALUE) st0) as H0.
  { subst st0. unfold startMainAnimation, andThen.
    destruct rv; cbn [assign ret]; by apply setupAnimation_reduced. }
  destruct (beat_pinned_run _ rv value evs st0 H0) as [Htl Hb].
  destruct H0 as [Htl0 Hb0]. done.
Qed.
End Beat.

(** ** Frame skipping *)

Section FrameSkip.
Import HeartAnimation.

Lemma ltb_true (p q : Qc) : (p <? q) = true <-> p < q.
Proof. unfold ltb. apply bool_decide_eq_true. Qed.

#[local] Instance lastRenderTime_render v : RenderStable (fun st => lastRenderTime st = v).
Proof.
  split; try done; [by intros rv; apply preserves_updateParticles|].
  intros rv time st HP. unfold updateHeartGeometry.
  destruct (heart st) as [[|u vs]|], (originHeart st); done.
Qed.



End FrameSkip.

(** ** The mesh displacement update *)

Section MeshUpdate.
Import HeartAnimation.

(** C2 (amended).  In [updateHeartGeometry] of part_000 and part_001 every
    vertex of the live mesh becomes the rest vertex [(x, y, z)] times
    [(noise4D(x*S, y*S, z*S, timeFactor) + 1) * S * A * beat], a factor
    without additive constant; in [animate] of assets/js/main.js it becomes
    the rest vertex times
    [1 + noise4D(x*1.5, y*1.5, z*1.5, time) * (0.15 * beat)], a factor with
    the additive constant [1] and without the shift of the noise. *)
Theorem updateHeartGeometry_scale :
  (forall rv time st vs oh k p,
     heart st = Some vs -> originHeart st = Some oh -> length vs = length oh ->
     vertex oh k = Some p ->
     exists st' vs',
       updateHeartGeometry rv time st = (Normal, st')
       /\ heart st' = Some vs'
       /\ vertex vs' k
          = Some (multiplyScalar p
                    (scale_spec (simplex st) p (timeFactor rv time) (a (beat st)))))
  /\ (forall now m k p,
     Main.isAnimating m = true ->
     length (Main.heart m) = length (Main.originHeart m) ->
     vertex (Main.originHeart m) k = Some p ->
     vertex (Main.heart (Main.animate now m)) k
     = Some (multiplyScalar p
               (1 + noise4D (Main.simplex m) (x p * num 1.5) (y p * num 1.5)
                      (z p * num 1.5) (now * num 0.000625)
                    * (num 0.15 * a (Main.beat m))))).
Proof.
  split.
  - intros rv time st vs oh k p Hh Ho Hlen Hp.
    eexists _, _. split; [by apply updateHeartGeometry_loaded|].
    split; [done|].
    rewrite (vertex_displaced _ _ _ _ _ Hp) by (apply vertex_lt in Hp; lia).
    by rewrite scale_code_spec.
  - intros now m k p Ha Hlen Hp. rewrite main_animate_eq by done.
    cbn [Main.heart].
    by rewrite (vertex_displaced _ _ _ _ _ Hp) by (apply vertex_lt in Hp; lia).
Qed.

(** C5.  Running [updateHeartGeometry] twice with the same time leaves the
    object exactly as running it once does (whether the mesh is loaded or
    not), and the live array it writes does not depend on what the live
    array held before, only on its length. *)
Theorem updateHeartGeometry_idempotent rv time :
  (forall st,
     andThen (updateHeartGeometry rv time) (updateHeartGeometry rv time) st
     = updateHeartGeometry rv time st)
  /\ (forall sx beat oh vs vs',
     length vs = length vs' ->
     displace rv sx beat time oh vs = displace rv sx beat time oh vs').
Proof.
  split.
  - intros st. unfold andThen.
    destruct (heart st) as [vs|] eqn:Hh.
    + destruct (originHeart st) as [oh|] eqn:Ho.
      * rewrite (updateHeartGeometry_loaded rv time st vs oh Hh Ho).
        set (vs1 := displaced _ oh (length vs)).
        rewrite (updateHeartGeometry_loaded rv time
                   (set_needsUpdate true (set_heart vs1 st)) vs1 oh eq_refl Ho).
        cbn [simplex beat set_needsUpdate set_heart]. subst vs1.
        rewrite displaced_length. reflexivity.
      * destruct vs as [|u vs].
        -- assert (forall s, heart s = Some [] -> originHeart s = None ->
                     updateHeartGeometry rv time s = (Normal, set_needsUpdate true s))
             as Hempty.
           { intros s Hs1 Hs2. unfold updateHeartGeometry. by rewrite Hs1, Hs2. }
           rewrite (Hempty st Hh Ho). cbv beta iota.
           by rewrite (Hempty (set_needsUpdate true st) Hh Ho).
        -- unfold updateHeartGeometry. by rewrite Hh, Ho.
    + unfold updateHeartGeometry. by rewrite Hh.
  - intros sx beat oh vs vs' Hlen. by rewrite !displace_eq, Hlen.
Qed.

Lemma mesh_inv_loaded st vs oh :
  heart st = Some vs -> originHeart st = Some oh -> length vs = length oh -> mesh_inv st.
Proof. intros Hh Ho Hlen. unfold mesh_inv. by rewrite Hh, Ho. Qed.

#[local] Instance mesh_inv_render : RenderStable mesh_inv.
Proof.
  split; try done; [by intros rv; apply preserves_updateParticles|].
  intros rv time st HP. unfold mesh_inv in HP.
  destruct (heart st) as [vs|] eqn:Hh, (originHeart st) as [oh|] eqn:Ho; try done.
  - rewrite (updateHeartGeometry_loaded rv time st vs oh Hh Ho).
    eapply mesh_inv_loaded; [reflexivity | exact Ho | by rewrite displaced_length].
  - unfold updateHeartGeometry. rewrite Hh. cbn [snd].
    unfold mesh_inv. by rewrite Hh, Ho.
Qed.

#[local] Instance mesh_inv_loop : LoopStable mesh_inv.
Proof. split; [apply _ | done..]. Qed.

Lemma mesh_inv_step rv value st ev : mesh_inv st -> mesh_inv (step rv value st ev).
Proof.
  intros HP. destruct ev as [vs draws now|now|f]; cbn [step].
  - by apply (mesh_inv_loaded _ vs vs).
  - unfold gsapTick. by destruct (timeline st).
  - destruct (pendingFrame st); [|done].
    by apply (preserves_animate mesh_inv).
Qed.

Lemma mesh_inv_run rv value evs st : mesh_inv st -> mesh_inv (run rv value evs st).
Proof.
  unfold run. revert st. induction evs as [|ev evs IH]; intros st HP; [done|].
  apply IH. by apply mesh_inv_step.
Qed.

(** C6.  At every moment of the life of the object the live mesh and the
    rest mesh are both absent or have the same length; and an update of a
    loaded mesh keeps the rest mesh and the length, and turns every rest
    vertex [p] into [c * p] for one scalar [c], in [updateHeartGeometry] of
    part_000 and part_001 and in [animate] of assets/js/main.js alike. *)
Theorem live_mesh_collinear :
  (forall rv REDUCED_MOTION sx value evs,
     mesh_inv (run rv value evs (startMainAnimation rv REDUCED_MOTION (new rv sx)).2))
  /\ (forall rv time st vs oh,
     heart st = Some vs -> originHeart st = Some oh -> length vs = length oh ->
     exists st' vs',
       updateHeartGeometry rv time st = (Normal, st')
       /\ heart st' = Some vs'
       /\ originHeart st' = Some oh
       /\ length vs' = length oh
       /\ forall k p, vertex oh k = Some p ->
            exists c, vertex vs' k = Some (mkVector3 (c * x p) (c * y p) (c * z p)))
  /\ (forall now m,
     Main.isAnimating m = true ->
     length (Main.heart m) = length (Main.originHeart m) ->
     Main.originHeart (Main.animate now m) = Main.originHeart m
     /\ length (Main.heart (Main.animate now m)) = length (Main.originHeart m)
     /\ forall k p, vertex (Main.originHeart m) k = Some p ->
          exists c, vertex (Main.heart (Main.animate now m)) k
                    = Some (mkVector3 (c * x p) (c * y p) (c * z p))).
Proof.
  split; [|split].
  - intros rv rm sx value evs. apply mesh_inv_run.
    unfold startMainAnimation, andThen, setupAnimation.
    by destruct rv, rm.
  - intros rv time st vs oh Hh Ho Hlen.
    eexists _, _. split; [by apply updateHeartGeometry_loaded|].
    split; [done|]. split; [done|]. split; [by rewrite displaced_length|].
    intros k p Hp. eexists.
    rewrite (vertex_displaced _ _ _ _ _ Hp) by (apply vertex_lt in Hp; lia).
    unfold multiplyScalar. by rewrite !(Qcmult_comm _ (scale_code _ _ _ _ _)).
  - intros now m Ha Hlen. rewrite main_animate_eq by done.
    cbn [Main.heart Main.originHeart].
    split; [done|]. split; [by rewrite displaced_length|].
    intros k p Hp. eexists.
    rewrite (vertex_displaced _ _ _ _ _ Hp) by (apply vertex_lt in Hp; lia).
    unfold multiplyScalar. by rewrite !(Qcmult_comm _ (scale_main _ _ _ _)).
Qed.
End MeshUpdate.

(** ** The theorems at concrete inputs *)

Section Examples.
Import HeartAnimation.

(** C1.  The second layer of [updateParticles] tests the z of [one], not
    the z of [two]: for every spark the loop body stores [one] when
    [one.z] is in the band of [rand] and then [two] when [one.z] is in the
    band of [rand * 2].  In part_001, for a spark at [(0, 0, 0.11)] with
    jitter [0.01], noise [0] and beat [0], [two] is [(0, 0, 0.143)],
    outside the band [|z| < 0.115 + 2 * 0.01], and is stored all the same;
    in part_000, for a spark at [(0, 0, 0.115)] with the same jitter and
    beat [0.5], [two] is [(0, 0, 0.1290875)], inside that band, and is not
    stored. *)
Theorem second_layer_tests_one_z :
  (forall rv beat c s,
     exists near far,
       SparkPoint.one (SparkPoint.update rv beat s) = Some near
       /\ SparkPoint.two (SparkPoint.update rv beat s) = Some far
       /\ examine rv beat c s
          = (Normal, SparkPoint.update rv beat s,
             pushes c
               ((if in_band (SparkPoint.rand s) (z near) then [near] else [])
                ++ (if in_band (SparkPoint.rand s * 2) (z near) then [far] else []))
               (SparkPoint.color s)))
  /\ (SparkPoint.two (SparkPoint.update rev_001 Fixture.still Fixture.on_axis)
     = Some (mkVector3 0 0 (num 0.143))
   /\ in_band (SparkPoint.rand Fixture.on_axis * 2) (num 0.143) = false
   /\ exposed_positions
        (updateParticles rev_001 (Fixture.loaded [Fixture.on_axis] Fixture.still)).2
      = Some [0; 0; num 0.1111; 0; 0; num 0.143])
  /\ (SparkPoint.two (SparkPoint.update rev_000 Fixture.beating Fixture.off_band)
      = Some (mkVector3 0 0 (num 0.1290875))
   /\ in_band (SparkPoint.rand Fixture.off_band * 2) (num 0.1290875) = true
   /\ exposed_positions
        (updateParticles rev_000 (Fixture.loaded [Fixture.off_band] Fixture.beating)).2
      = Some []).
Proof.
  split; [|repeat split; qc_eq].
  intros rv beat c s.
  exists (candidateNear (SparkPoint.simplex s) (SparkPoint.pos s) (a beat)),
    (candidateFar rv (SparkPoint.simplex s) (SparkPoint.pos s) (a beat)).
  split; [apply update_one|].
  split; [destruct rv; [apply update_two_000 | apply update_two_001]|].
  apply examine_eq.
Qed.

(** C2, as stated, fails on assets/js/main.js: with noise [0] and beat [0]
    the rest vertex [(1, 1, 1)] stays [(1, 1, 1)], while the claimed factor
    [(0 + 1) * S * A * 0 = 0] would send it to [(0, 0, 0)]. *)
Lemma main_animate_keeps_constant_term :
  Main.isAnimating Fixture.main_loaded = true
  /\ vertex (Main.originHeart Fixture.main_loaded) 0%nat = Some (mkVector3 1 1 1)
  /\ vertex (Main.heart (Main.animate 0 Fixture.main_loaded)) 0%nat = Some (mkVector3 1 1 1)
  /\ multiplyScalar (mkVector3 1 1 1)
       (scale_spec (Main.simplex Fixture.main_loaded) (mkVector3 1 1 1)
          (0 * num 0.000625) (a (Main.beat Fixture.main_loaded)))
     = mkVector3 0 0 0
  /\ vertex (Main.heart (Main.animate 0 Fixture.main_loaded)) 0%nat
     <> Some (multiplyScalar (mkVector3 1 1 1)
                (scale_spec (Main.simplex Fixture.main_loaded) (mkVector3 1 1 1)
                   (0 * num 0.000625) (a (Main.beat Fixture.main_loaded)))).
Proof.
  repeat split; try qc_eq.
  intros H.
  apply (f_equal (fun o => from_option (fun v => this (x v)) 0%Q o)) in H.
  vm_compute in H. discriminate H.
Qed.

Lemma updateHeartGeometry_scale_witness :
  (exists st' vs',
     updateHeartGeometry rev_000 0 (Fixture.loaded [] Fixture.beating) = (Normal, st')
     /\ heart st' = Some vs'
     /\ vertex vs' 1%nat
        = Some (multiplyScalar (mkVector3 (num 0.5) 0 (-(1)))
                  (scale_spec Fixture.zero_noise (mkVector3 (num 0.5) 0 (-(1)))
                     (timeFactor rev_000 0) (num 0.5))))
  /\ vertex (Main.heart (Main.animate 0 Fixture.main_loaded)) 1%nat
     = Some (multiplyScalar (mkVector3 (num 0.5) 0 (-(1)))
               (1 + 0 * (num 0.15 * 0))).
Proof.
  split.
  - apply (proj1 updateHeartGeometry_scale rev_000 0 (Fixture.loaded [] Fixture.beating)
             Fixture.rest_mesh Fixture.rest_mesh 1%nat (mkVector3 (num 0.5) 0 (-(1))));
      reflexivity.
  - apply (proj2 updateHeartGeometry_scale 0 Fixture.main_loaded 1%nat
             (mkVector3 (num 0.5) 0 (-(1)))); reflexivity.
Defined.

Lemma updateParticles_filled_length_witness :
  exists st' n,
    updateParticles rev_001
      (Fixture.loaded [Fixture.on_axis; Fixture.off_band] Fixture.still) = (Normal, st')
    /\ exposed_positions st'
       = Some (packed_positions rev_001 Fixture.still [Fixture.on_axis; Fixture.off_band])
    /\ length (packed_positions rev_001 Fixture.still [Fixture.on_axis; Fixture.off_band])
       = n.
Proof.
  destruct (updateParticles_filled_length rev_001
              (Fixture.loaded [Fixture.on_axis; Fixture.off_band] Fixture.still))
    as (_ & st' & n & Hrun & _ & _ & _ & _ & _ & Hcap).
  exists st', n. split; [exact Hrun|].
  destruct Hcap as (Hp & _ & Hn & _); [simpl; lia | simpl; lia |].
  exact (conj Hp Hn).
Defined.

Lemma updateHeartGeometry_idempotent_witness :
  displace rev_001 Fixture.zero_noise (num 0.5) 0 Fixture.rest_mesh [0; 0; 0; 0; 0; 0]
  = displace rev_001 Fixture.zero_noise (num 0.5) 0 Fixture.rest_mesh Fixture.rest_mesh.
Proof.
  apply (proj2 (updateHeartGeometry_idempotent rev_001 0)). reflexivity.
Defined.

Lemma live_mesh_collinear_witness :
  (exists st' vs',
     updateHeartGeometry rev_001 0 (Fixture.loaded [] Fixture.beating) = (Normal, st')
     /\ heart st' = Some vs'
     /\ length vs' = length Fixture.rest_mesh)
  /\ length (Main.heart (Main.animate 0 Fixture.main_loaded)) = length Fixture.rest_mesh.
Proof.
  destruct live_mesh_collinear as (_ & Hupd & Hmain). split.
  - destruct (Hupd rev_001 0 (Fixture.loaded [] Fixture.beating)
                Fixture.rest_mesh Fixture.rest_mesh eq_refl eq_refl eq_refl)
      as (st' & vs' & H1 & H2 & _ & H4 & _).
    exists st', vs'. exact (conj H1 (conj H2 H4)).
  - destruct (Hmain 0 Fixture.main_loaded eq_refl eq_refl) as (_ & H2 & _).
    exact H2.
Defined.

End Examples.

(** ** Frames that do not draw *)

Section QuietFrames.
Import HeartAnimation.

Lemma ltb_false (p q : Qc) : (p <? q) = false <-> ~ p < q.
Proof. unfold ltb. apply bool_decide_eq_false. Qed.

Lemma run_no_request rv value fs st :
  pendingFrame st = false -> run rv value (AnimationFrame <$> fs) st = st.
Proof.
  intros Hp. unfold run. induction fs as [|f fs IH]; [done|].
  cbn [fmap list_fmap fold_left step]. by rewrite Hp.
Qed.

(** A call of [render] on a loaded, visible, animating object whose
    renderer throws: the sparks have been updated and nothing was drawn. *)
Lemma render_throwing rv f st :
  isAnimating st = true -> is_Some (heart st) ->
  documentHidden f = false -> rendererThrows f = true ->
  exists e st1,
    render rv f st = (Thrown e, st1)
    /\ trace st1 = trace st
    /\ lastRenderTime st1 = lastRenderTime st
    /\ pendingFrame st1 = pendingFrame st
    /\ spikes st1 = SparkPoint.update rv (beat st) <$> spikes st.
Proof.
  intros Ha [vs Hh] Hd Ht. unfold render, tryCatch, andThen, rendererRender.
  rewrite Ha, Hh, Hd, Ht, updateParticles_eq. cbv zeta.
  rewrite bool_decide_true by eauto. cbn [negb orb].
  set (st0 := set_attributes _ _ _).
  assert (heart st0 = Some vs) as Hh0 by exact Hh.
  destruct (originHeart st) as [oh|] eqn:Ho.
  - rewrite (updateHeartGeometry_loaded rv (currentTime f) st0 vs oh Hh0 Ho).
    destruct rv; cbn [updateControls ret assign throw]; by eexists _, _.
  - unfold updateHeartGeometry. rewrite Hh0.
    assert (originHeart st0 = None) as -> by exact Ho.
    destruct vs as [|u vs]; [|by eexists _, _].
    destruct rv; cbn [updateControls ret assign throw]; by eexists _, _.
Qed.

(** X1.  When a due frame of a loaded, visible, running object fails in the
    renderer, the loop stops: the error is shown once, [isAnimating] is
    cleared, no frame is requested, [lastRenderTime] keeps its value, the
    sparks keep the update they had already received, and no later
    animation frame changes anything. *)
Theorem failing_frame_stops_loop rv value f st :
  isAnimating st = true -> pendingFrame st = true -> is_Some (heart st) ->
  documentHidden f = false -> rendererThrows f = true ->
  ~ currentTime f - lastRenderTime st < CONFIG.FRAME_SKIP_THRESHOLD ->
  isAnimating (step rv value st (AnimationFrame f)) = false
  /\ pendingFrame (step rv value st (AnimationFrame f)) = false
  /\ trace (step rv value st (AnimationFrame f)) = trace st ++ [ShowError]
  /\ lastRenderTime (step rv value st (AnimationFrame f)) = lastRenderTime st
  /\ spikes (step rv value st (AnimationFrame f))
     = SparkPoint.update rv (beat st) <$> spikes st
  /\ forall fs,
       run rv value (AnimationFrame <$> fs) (step rv value st (AnimationFrame f))
       = step rv value st (AnimationFrame f).
Proof.
  intros Ha Hp Hh Hd Ht Hskip%ltb_false.
  cbn [step]. rewrite Hp.
  rewrite animate_rendering by done.
  destruct (render_throwing rv f (set_pendingFrame false st) Ha Hh Hd Ht)
    as (e & st1 & -> & Htr & Hl & Hpf & Hsp).
  cbn [snd].
  assert (pendingFrame (emit ShowError (set_isAnimating false st1)) = false) as Hq
    by exact Hpf.
  split; [done|]. split; [done|].
  split; [by change (trace st1 ++ [ShowError] = trace st ++ [ShowError]); rewrite Htr|].
  split; [exact Hl|]. split; [exact Hsp|].
  intros fs. by apply run_no_request.
Qed.

(** X2.  A due frame of a running object whose page is hidden, or whose
    model is not loaded yet, draws and updates nothing, but it still stores
    [currentTime] in [lastRenderTime] and requests the next frame. *)
Theorem hidden_frame_draws_nothing rv f st :
  isAnimating st = true ->
  documentHidden f = true \/ heart st = None ->
  ~ currentTime f - lastRenderTime st < CONFIG.FRAME_SKIP_THRESHOLD ->
  animate rv f st
  = (Normal, set_pendingFrame true (set_lastRenderTime (currentTime f) st))
  /\ trace (animate rv f st).2 = trace st
  /\ spikes (animate rv f st).2 = spikes st
  /\ exposed_positions (animate rv f st).2 = exposed_positions st
  /\ heart (animate rv f st).2 = heart st
  /\ lastRenderTime (animate rv f st).2 = currentTime f.
Proof.
  intros Ha Hq Hskip%ltb_false.
  assert (render rv f st = (Normal, st)) as Hr.
  { unfold render. rewrite Ha. cbn [negb orb].
    destruct Hq as [Hd | Hh].
    - rewrite Hd. by destruct (negb _).
    - rewrite Hh. by rewrite bool_decide_false by (by intros [? ?]). }
  rewrite animate_rendering by done. by rewrite Hr.
Qed.
End QuietFrames.

(** ** The set of sparks *)

Section Sparks.
Import HeartAnimation.

#[local] Instance born_render v : RenderStable (fun st => born (spikes st) = v).
Proof.
  split; try done.
  - intros rv st HP. rewrite updateParticles_eq. cbv zeta. cbn [snd].
    change (born (SparkPoint.update rv (beat st) <$> spikes st) = v).
    rewrite <- HP. unfold born. rewrite <- list_fmap_compose.
    by apply list_fmap_ext.
  - intros rv time st HP. unfold updateHeartGeometry.
    destruct (heart st) as [[|u vs]|], (originHeart st); exact HP.
Qed.

#[local] Instance born_loop v : LoopStable (fun st => born (spikes st) = v).
Proof. split; [apply _ | done..]. Qed.

#[local] Instance count_render n : RenderStable (fun st => length (spikes st) = n).
Proof.
  split; try done.
  - intros rv st HP. rewrite updateParticles_eq. cbv zeta. cbn [snd].
    change (length (SparkPoint.update rv (beat st) <$> spikes st) = n).
    by rewrite length_fmap.
  - intros rv time st HP. unfold updateHeartGeometry.
    destruct (heart st) as [[|u vs]|], (originHeart st); exact HP.
Qed.

#[local] Instance count_loop n : LoopStable (fun st => length (spikes st) = n).
Proof. split; [apply _ | done..]. Qed.

Lemma count_after_load rv value st vs draws now :
  length (spikes (step rv value st (HeartLoaded vs draws now))) = CONFIG.PARTICLE_COUNT.
Proof.
  change (length ((fun i => SparkPoint.new (draws i) (simplex st))
                    <$> seq 0 CONFIG.PARTICLE_COUNT) = CONFIG.PARTICLE_COUNT).
  by rewrite length_fmap, length_seq.
Qed.

(** X3.  Once the model has arrived there are exactly [PARTICLE_COUNT]
    sparks, whatever happens next (frames, gsap ticks, another arrival of
    the model); and frames and gsap ticks never change the origin, the
    colour or the jitter of a spark. *)
Theorem sparks_fixed rv value :
  (forall st vs draws now evs,
     length (spikes (run rv value evs (step rv value st (HeartLoaded vs draws now))))
     = CONFIG.PARTICLE_COUNT)
  /\ (forall evs st,
     Forall (fun ev => is_load ev = false) evs ->
     born (spikes (run rv value evs st)) = born (spikes st)).
Proof.
  split.
  - intros st vs draws now evs.
    pose proof (count_after_load rv value st vs draws now) as H0.
    revert H0. generalize (step rv value st (HeartLoaded vs draws now)).
    unfold run. induction evs as [|ev evs IH]; intros s Hs; [done|].
    cbn [fold_left]. apply IH.
    destruct ev as [vs' draws' now'|now'|f].
    + apply count_after_load.
    + cbn [step]. unfold gsapTick. by destruct (timeline s).
    + cbn [step]. destruct (pendingFrame s); [|done].
      by apply (preserves_animate (fun st => length (spikes st) = CONFIG.PARTICLE_COUNT)).
  - intros evs. unfold run. induction evs as [|ev evs IH]; intros st Hall; [done|].
    inversion Hall as [|? ? Hev Hall']; subst. cbn [fold_left].
    rewrite (IH _ Hall').
    destruct ev as [vs' draws' now'|now'|f]; [done| |].
    + cbn [step]. unfold gsapTick. by destruct (timeline st).
    + cbn [step]. destruct (pendingFrame st); [|done].
      by apply (preserves_animate (fun s => born (spikes s) = born (spikes st))).
Qed.
End Sparks.

(** ** Repeating a pass *)

Section Repeat.
Import HeartAnimation.

Implicit Types (c : cursor) (s : SparkPoint.t) (sp : list SparkPoint.t).

Lemma drop_write3 (arr : list Qc) (m i : nat) (u v w : Qc) :
  (i + 3 <= m)%nat -> drop m (write3 arr i u v w) = drop m arr.
Proof. intros Hm. unfold write3. rewrite !drop_insert_lt; [done | lia..]. Qed.

Lemma pushes_drop c vs col (m : nat) :
  (posIdx c + 3 * length vs <= m)%nat -> (colorIdx c + 3 * length vs <= m)%nat ->
  drop m (buf_positions (pushes c vs col)) = drop m (buf_positions c)
  /\ drop m (buf_colors (pushes c vs col)) = drop m (buf_colors c).
Proof.
  unfold pushes. revert c. induction vs as [|v vs IH]; intros c Hp Hc; [done|].
  cbn [fold_left length] in *.
  destruct (IH (push c v col)) as [-> ->]; [simpl; lia..|].
  simpl. rewrite !drop_write3 by lia. done.
Qed.

Lemma fill_drop rv beat sp c (m : nat) :
  (posIdx (fill rv beat sp c) <= m)%nat -> (colorIdx (fill rv beat sp c) <= m)%nat ->
  drop m (buf_positions (fill rv beat sp c)) = drop m (buf_positions c)
  /\ drop m (buf_colors (fill rv beat sp c)) = drop m (buf_colors c).
Proof.
  unfold fill. revert c. induction sp as [|s sp IH]; intros c Hp Hc; [done|].
  cbn [fold_left] in *.
  destruct (IH _ Hp Hc) as [-> ->].
  destruct (fill_idx rv beat sp (pushes c (accepted rv beat s) (SparkPoint.color s)))
    as [Hi1 Hi2].
  unfold fill in Hi1, Hi2. rewrite Hi1 in Hp. rewrite Hi2 in Hc.
  rewrite pushes_posIdx in Hp. rewrite pushes_colorIdx in Hc.
  apply pushes_drop; lia.
Qed.

(** A pass does not depend on what an earlier pass left in the sparks. *)
Lemma fill_updated rv beat sp c :
  fill rv beat (SparkPoint.update rv beat <$> sp) c = fill rv beat sp c.
Proof.
  unfold fill. revert c. induction sp as [|s sp IH]; intros c; [done|].
  cbn [fmap list_fmap fold_left]. by rewrite <- IH.
Qed.

Lemma update_update rv beat sp :
  SparkPoint.update rv beat <$> (SparkPoint.update rv beat <$> sp)
  = SparkPoint.update rv beat <$> sp.
Proof. rewrite <- list_fmap_compose. by apply list_fmap_ext. Qed.

(** X4.  With buffers of [6 * N] floats or more, running [updateParticles]
    twice under the same beat leaves the object (sparks, buffers and the
    two views) exactly as running it once does. *)
Theorem updateParticles_idempotent rv st :
  (6 * length (spikes st) <= length (positions st))%nat ->
  (6 * length (spikes st) <= length (colors st))%nat ->
  andThen (updateParticles rv) (updateParticles rv) st = updateParticles rv st.
Proof.
  intros Hcp Hcc. unfold andThen. rewrite (updateParticles_eq rv st).
  cbv beta iota zeta.
  set (c0 := mkCursor (positions st) (colors st) 0 0).
  set (c1 := fill rv (beat st) (spikes st) c0).
  rewrite updateParticles_eq. cbv zeta.
  cbn [spikes positions colors beat set_attributes set_particles].
  rewrite fill_updated, update_update.
  set (c0' := mkCursor (buf_positions c1) (buf_colors c1) 0 0).
  set (c2 := fill rv (beat st) (spikes st) c0').
  destruct (fill_idx rv (beat st) (spikes st) c0) as [Hp1 Hc1].
  destruct (fill_idx rv (beat st) (spikes st) c0') as [Hp2 Hc2].
  fold c1 in Hp1, Hc1. fold c2 in Hp2, Hc2.
  change (posIdx c0) with 0%nat in Hp1. change (colorIdx c0) with 0%nat in Hc1.
  change (posIdx c0') with 0%nat in Hp2. change (colorIdx c0') with 0%nat in Hc2.
  destruct (fill_length rv (beat st) (spikes st) c0) as [Hl1 Hl1'].
  fold c1 in Hl1, Hl1'. cbn [buf_positions buf_colors c0] in Hl1, Hl1'.
  pose proof (accepted_total rv (beat st) (spikes st)) as Hacc.
  assert (buf_positions c2 = buf_positions c1 /\ buf_colors c2 = buf_colors c1)
    as [Hb Hcl].
  { destruct (fill_take rv (beat st) (spikes st) c0) as [Ht1 Ht1'];
      [exact Hcp | exact Hcc |].
    destruct (fill_take rv (beat st) (spikes st) c0') as [Ht2 Ht2'].
    { change (6 * length (spikes st) <= length (buf_positions c1))%nat.
      by rewrite Hl1. }
    { change (6 * length (spikes st) <= length (buf_colors c1))%nat.
      by rewrite Hl1'. }
    destruct (fill_drop rv (beat st) (spikes st) c0' (posIdx c2)) as [Hd2 Hd2'];
      [fold c2; lia..|].
    fold c1 in Ht1, Ht1'. fold c2 in Ht2, Ht2', Hd2, Hd2'.
    cbn [buf_positions buf_colors posIdx colorIdx c0 c0'] in *.
    rewrite take_0, app_nil_l in Ht1, Ht1', Ht2, Ht2'.
    split.
    - rewrite <- (take_drop (posIdx c2) (buf_positions c2)), Ht2, Hd2.
      rewrite <- Ht1. replace (posIdx c2) with (posIdx c1) by lia.
      apply take_drop.
    - replace (posIdx c2) with (colorIdx c2) in Hd2' by lia.
      rewrite <- (take_drop (colorIdx c2) (buf_colors c2)), Ht2', Hd2'.
      rewrite <- Ht1'. replace (colorIdx c2) with (colorIdx c1) by lia.
      apply take_drop. }
  rewrite Hb, Hcl.
  replace (posIdx c2) with (posIdx c1) by lia.
  replace (colorIdx c2) with (colorIdx c1) by lia.
  reflexivity.
Qed.

Lemma in_band_widens (j z0 : Qc) :
  0 <= j -> in_band j z0 = true -> in_band (j * 2) z0 = true.
Proof.
  unfold in_band. intros Hj [H1 H2]%andb_true_iff.
  apply ltb_true in H1, H2.
  apply andb_true_iff. split; apply ltb_true; qc2q; lra.
Qed.

(** X5.  For a spark whose jitter is not negative, the band of the second
    layer contains the band of the first: whenever the loop body stores
    [one] it stores [two] as well, so a spark adds nothing, [two] alone, or
    [one] and then [two]. *)
Theorem first_layer_implies_second rv beat c s :
  0 <= SparkPoint.rand s ->
  exists near far,
    SparkPoint.one (SparkPoint.update rv beat s) = Some near
    /\ SparkPoint.two (SparkPoint.update rv beat s) = Some far
    /\ ((examine rv beat c s).2 = c
        \/ (examine rv beat c s).2 = push c far (SparkPoint.color s)
        \/ (examine rv beat c s).2
           = push (push c near (SparkPoint.color s)) far (SparkPoint.color s)).
Proof.
  intros Hj.
  exists (candidateNear (SparkPoint.simplex s) (SparkPoint.pos s) (a beat)),
    (candidateFar rv (SparkPoint.simplex s) (SparkPoint.pos s) (a beat)).
  split; [apply update_one|].
  split; [destruct rv; [apply update_two_000 | apply update_two_001]|].
  rewrite examine_eq. cbn [snd]. unfold accepted, pushes.
  destruct (in_band (SparkPoint.rand s) _) eqn:H1.
  - rewrite (in_band_widens _ _ Hj H1). by right; right.
  - destruct (in_band (SparkPoint.rand s * 2) _); [by right; left | by left].
Qed.
End Repeat.

(** ** Ranges of the displacement factors *)

Section Ranges.
Import HeartAnimation.

(** X6.  With noise values in [[-1, 1]] and a beat in [[0, BEAT_MAX_VALUE]],
    [update] puts [one] at the origin of the spark times a factor between
    [1.01] and [1.29125], and [two] at the origin times a factor between
    [1.01] and [1.235] in part_000 and between [0.4] and [2] in part_001. *)
Theorem candidate_factors_bounded rv beat s :
  bounded_noise (SparkPoint.simplex s) ->
  0 <= a beat <= CONFIG.BEAT_MAX_VALUE ->
  exists k1 k2,
    SparkPoint.one (SparkPoint.update rv beat s)
      = Some (multiplyScalar (SparkPoint.pos s) k1)
    /\ SparkPoint.two (SparkPoint.update rv beat s)
      = Some (multiplyScalar (SparkPoint.pos s) k2)
    /\ num 1.01 <= k1 <= num 1.29125
    /\ match rv with
       | rev_000 => num 1.01 <= k2 <= num 1.235
       | rev_001 => num 0.4 <= k2 <= 2
       end.
Proof.
  intros Hn [Hb0 Hb1]. unfold CONFIG.BEAT_MAX_VALUE in Hb1.
  pose proof (Hn (x (SparkPoint.pos s)) (y (SparkPoint.pos s)) (z (SparkPoint.pos s))
                (num 0.1)) as [Hn1 Hn1'].
  pose proof (Hn (x (SparkPoint.pos s) * CONFIG.NOISE_FREQUENCY)
                (y (SparkPoint.pos s) * CONFIG.NOISE_FREQUENCY)
                (z (SparkPoint.pos s) * CONFIG.NOISE_FREQUENCY) 1) as [Hn2 Hn2'].
  fold (n2 (SparkPoint.simplex s) (SparkPoint.pos s)) in Hn2, Hn2'.
  clear Hn.
  destruct rv.
  - eexists _, _. split; [apply update_one|]. split; [apply update_two_000|].
    unfold CONFIG.NOISE_SCALE, CONFIG.NOISE_AMPLITUDE.
    generalize dependent (n2 (SparkPoint.simplex s) (SparkPoint.pos s)).
    generalize dependent (noise4D (SparkPoint.simplex s) (x (SparkPoint.pos s))
                            (y (SparkPoint.pos s)) (z (SparkPoint.pos s)) (num 0.1)).
    generalize dependent (a beat). intros b Hb0 Hb1 m1 Hn1 Hn1' m2 Hn2 Hn2'.
    qc2q. repeat split; nra.
  - eexists _, _. split; [apply update_one|]. split; [apply update_two_001|].
    unfold CONFIG.NOISE_SCALE, CONFIG.NOISE_AMPLITUDE.
    generalize dependent (n2 (SparkPoint.simplex s) (SparkPoint.pos s)).
    generalize dependent (noise4D (SparkPoint.simplex s) (x (SparkPoint.pos s))
                            (y (SparkPoint.pos s)) (z (SparkPoint.pos s)) (num 0.1)).
    generalize dependent (a beat). intros b Hb0 Hb1 m1 Hn1 Hn1' m2 Hn2 Hn2'.
    qc2q. repeat split; nra.
Qed.

(** X7.  With noise values in [[-1, 1]] and a beat in [[0, BEAT_MAX_VALUE]],
    [updateHeartGeometry] scales every rest vertex by a factor between [0]
    and [0.225], so the live mesh lies inside the rest mesh, while
    [animate] of assets/js/main.js scales it by a factor between [0.925]
    and [1.075]. *)
Theorem live_mesh_scale_bounded :
  (forall rv time st vs oh k p,
     heart st = Some vs -> originHeart st = Some oh -> length vs = length oh ->
     vertex oh k = Some p ->
     bounded_noise (simplex st) -> 0 <= a (beat st) <= CONFIG.BEAT_MAX_VALUE ->
     exists st' vs' c,
       updateHeartGeometry rv time st = (Normal, st')
       /\ heart st' = Some vs'
       /\ vertex vs' k = Some (multiplyScalar p c)
       /\ 0 <= c <= num 0.225)
  /\ (forall now m k p,
     Main.isAnimating m = true ->
     length (Main.heart m) = length (Main.originHeart m) ->
     vertex (Main.originHeart m) k = Some p ->
     bounded_noise (Main.simplex m) -> 0 <= a (Main.beat m) <= CONFIG.BEAT_MAX_VALUE ->
     exists c,
       vertex (Main.heart (Main.animate now m)) k = Some (multiplyScalar p c)
       /\ num 0.925 <= c <= num 1.075).
Proof.
  split.
  - intros rv time st vs oh k p Hh Ho Hlen Hp Hn [Hb0 Hb1].
    eexists _, _, _. split; [by apply updateHeartGeometry_loaded|].
    split; [done|].
    split; [apply (vertex_displaced _ _ _ _ _ Hp); apply vertex_lt in Hp; lia|].
    unfold scale_code, NOISE_SCALE_AMPLITUDE, CONFIG.NOISE_SCALE,
      CONFIG.NOISE_AMPLITUDE, CONFIG.BEAT_MAX_VALUE in *.
    pose proof (Hn (x p * num 1.5) (y p * num 1.5) (z p * num 1.5)
                  (timeFactor rv time)) as [Hn1 Hn2].
    clear Hn. set (m1 := noise4D _ _ _ _ _) in *. clearbody m1.
    generalize dependent (a (beat st)). intros b Hb0 Hb1.
    qc2q. split; nra.
  - intros now m k p Ha Hlen Hp Hn [Hb0 Hb1]. rewrite main_animate_eq by done.
    cbn [Main.heart]. eexists.
    split; [apply (vertex_displaced _ _ _ _ _ Hp); apply vertex_lt in Hp; lia|].
    cbv beta. unfold scale_main, CONFIG.BEAT_MAX_VALUE in *.
    pose proof (Hn (x p * num 1.5) (y p * num 1.5) (z p * num 1.5)
                  (now * num 0.000625)) as [Hn1 Hn2].
    clear Hn. set (m1 := noise4D _ _ _ _ _) in *. clearbody m1.
    generalize dependent (a (Main.beat m)). intros b Hb0 Hb1.
    qc2q. split; nra.
Qed.
End Ranges.

(** ** The mesh when the beat is zero *)

Section BeatZero.
Import HeartAnimation.

Lemma stored_ext (f g h f' g' h' : nat -> Qc) (j : nat) :
  (forall i, f i = f' i) -> (forall i, g i = g' i) -> (forall i, h i = h' i) ->
  stored f g h j = stored f' g' h' j.
Proof. intros Hf Hg Hh. unfold stored. by rewrite Hf, Hg, Hh. Qed.

Lemma stored_zero (j : nat) : stored (fun _ => 0) (fun _ => 0) (fun _ => 0) j = 0.
Proof. unfold stored. by destruct (j mod 3)%nat as [|[|?]]. Qed.

Lemma stored_read (oh : list Qc) (j : nat) :
  stored (read oh) (fun i => read oh (i + 1)) (fun i => read oh (i + 2)) j = read oh j.
Proof.
  unfold stored.
  destruct (j mod 3)%nat as [|[|r0]] eqn:Hm; f_equal; lia.
Qed.

Lemma tabulate_zero (len : nat) : (fun _ : nat => 0) <$> seq 0 len = replicate len 0.
Proof.
  apply list_eq. intros j. rewrite list_lookup_fmap.
  destruct (decide (j < len)%nat) as [Hlt|Hge].
  - by rewrite lookup_seq_lt, lookup_replicate_2.
  - rewrite (lookup_ge_None_2 (seq 0 len)) by (rewrite length_seq; lia).
    symmetry. apply lookup_ge_None_2. rewrite length_replicate. lia.
Qed.

Lemma tabulate_read (oh : list Qc) : read oh <$> seq 0 (length oh) = oh.
Proof.
  apply list_eq. intros j. rewrite list_lookup_fmap.
  destruct (decide (j < length oh)%nat) as [Hlt|Hge].
  - rewrite lookup_seq_lt by done. cbn. unfold read.
    destruct (lookup_lt_is_Some_2 oh j Hlt) as [v Hv]. by rewrite Hv.
  - rewrite (lookup_ge_None_2 (seq 0 (length oh))) by (rewrite length_seq; lia).
    symmetry. apply lookup_ge_None_2. lia.
Qed.

(** X8.  When [beat.a] is [0], [updateHeartGeometry] of part_000 and
    part_001 overwrites the whole live array of a loaded mesh with zeros
    (the mesh collapses into the origin), whereas [animate] of
    assets/js/main.js writes the rest array back into the live array. *)
Theorem beat_zero_mesh :
  (forall rv time st vs oh,
     heart st = Some vs -> originHeart st = Some oh -> a (beat st) = 0 ->
     exists st',
       updateHeartGeometry rv time st = (Normal, st')
       /\ heart st' = Some (replicate (length vs) 0))
  /\ (forall now m,
     Main.isAnimating m = true ->
     length (Main.heart m) = length (Main.originHeart m) ->
     a (Main.beat m) = 0 ->
     Main.heart (Main.animate now m) = Main.originHeart m).
Proof.
  split.
  - intros rv time st vs oh Hh Ho Hb.
    eexists. split; [by apply updateHeartGeometry_loaded|].
    cbn [heart set_needsUpdate set_heart]. f_equal.
    unfold displaced. rewrite <- tabulate_zero.
    apply list_fmap_ext. intros _ j _.
    rewrite <- (stored_zero j). apply stored_ext; intros i;
      unfold scale_code; rewrite Hb; ring.
  - intros now m Ha Hlen Hb. rewrite main_animate_eq by done.
    cbn [Main.heart]. rewrite Hlen.
    rewrite <- (tabulate_read (Main.originHeart m)) at 3.
    unfold displaced. apply list_fmap_ext. intros _ j _.
    rewrite <- stored_read. apply stored_ext; intros i;
      unfold scale_main, origin_at; cbn [x y z]; rewrite Hb; ring.
Qed.
End BeatZero.

(** ** The theorems above at concrete inputs *)

Section MoreExamples.
Import HeartAnimation.

Lemma zero_noise_bounded : bounded_noise Fixture.zero_noise.
Proof. intros ? ? ? ?. split; qc_order. Qed.

Lemma failing_frame_stops_loop_witness :
  isAnimating (step rev_000 (fun _ _ => 0) Sample.running (AnimationFrame Sample.failing))
  = false
  /\ trace (step rev_000 (fun _ _ => 0) Sample.running (AnimationFrame Sample.failing))
     = [ShowError].
Proof.
  destruct (failing_frame_stops_loop rev_000 (fun _ _ => 0) Sample.failing Sample.running)
    as (H1 & _ & H3 & _); [reflexivity | reflexivity | by eexists | reflexivity
                          | reflexivity | qc_order |].
  exact (conj H1 H3).
Defined.

Lemma hidden_frame_draws_nothing_witness :
  trace (animate rev_001 Sample.hidden Sample.running).2 = []
  /\ lastRenderTime (animate rev_001 Sample.hidden Sample.running).2 = num 20.
Proof.
  destruct (hidden_frame_draws_nothing rev_001 Sample.hidden Sample.running)
    as (_ & H2 & _ & _ & _ & H6); [reflexivity | by left | qc_order |].
  exact (conj H2 H6).
Defined.

Lemma sparks_fixed_witness :
  born (spikes (run rev_001 (fun _ _ => 0)
                  [GsapTick 0; AnimationFrame Sample.drawn] Sample.running))
  = born (spikes Sample.running).
Proof.
  apply (proj2 (sparks_fixed rev_001 (fun _ _ => 0))). by repeat constructor.
Defined.

Lemma updateParticles_idempotent_witness :
  andThen (updateParticles rev_001) (updateParticles rev_001) Sample.running
  = updateParticles rev_001 Sample.running.
Proof.
  apply updateParticles_idempotent; simpl; lia.
Defined.

Lemma first_layer_implies_second_witness :
  exists near far,
    SparkPoint.one (SparkPoint.update rev_001 Fixture.still Fixture.on_axis) = Some near
    /\ SparkPoint.two (SparkPoint.update rev_001 Fixture.still Fixture.on_axis) = Some far.
Proof.
  destruct (first_layer_implies_second rev_001 Fixture.still
              (mkCursor (replicate 6 0) (replicate 6 0) 0 0) Fixture.on_axis)
    as (near & far & H1 & H2 & _); [qc_order|].
  exists near, far. exact (conj H1 H2).
Defined.

Lemma candidate_factors_bounded_witness :
  exists k1 k2,
    SparkPoint.one (SparkPoint.update rev_001 Fixture.beating Fixture.on_axis)
      = Some (multiplyScalar (SparkPoint.pos Fixture.on_axis) k1)
    /\ SparkPoint.two (SparkPoint.update rev_001 Fixture.beating Fixture.on_axis)
      = Some (multiplyScalar (SparkPoint.pos Fixture.on_axis) k2)
    /\ num 1.01 <= k1 <= num 1.29125
    /\ num 0.4 <= k2 <= 2.
Proof.
  apply (candidate_factors_bounded rev_001 Fixture.beating Fixture.on_axis).
  - exact zero_noise_bounded.
  - split; qc_order.
Defined.

Lemma live_mesh_scale_bounded_witness :
  (exists st' vs' c,
     updateHeartGeometry rev_000 0 (Fixture.loaded [] Fixture.beating) = (Normal, st')
     /\ heart st' = Some vs'
     /\ vertex vs' 1%nat = Some (multiplyScalar (mkVector3 (num 0.5) 0 (-(1))) c)
     /\ 0 <= c <= num 0.225)
  /\ (exists c,
     vertex (Main.heart (Main.animate 0 Fixture.main_loaded)) 1%nat
     = Some (multiplyScalar (mkVector3 (num 0.5) 0 (-(1))) c)
     /\ num 0.925 <= c <= num 1.075).
Proof.
  split.
  - apply (proj1 live_mesh_scale_bounded rev_000 0 (Fixture.loaded [] Fixture.beating)
             Fixture.rest_mesh Fixture.rest_mesh 1%nat (mkVector3 (num 0.5) 0 (-(1))));
      try reflexivity; [exact zero_noise_bounded | split; qc_order].
  - apply (proj2 live_mesh_scale_bounded 0 Fixture.main_loaded 1%nat
             (mkVector3 (num 0.5) 0 (-(1))));
      try reflexivity; [exact zero_noise_bounded | split; qc_order].
Defined.

Lemma beat_zero_mesh_witness :
  (exists st',
     updateHeartGeometry rev_001 0 (Fixture.loaded [] Fixture.still) = (Normal, st')
     /\ heart st' = Some (replicate 6 0))
  /\ Main.heart (Main.animate 0 Fixture.main_loaded) = Fixture.rest_mesh.
Proof.
  split.
  - apply (proj1 beat_zero_mesh rev_001 0 (Fixture.loaded [] Fixture.still)
             Fixture.rest_mesh Fixture.rest_mesh); reflexivity.
  - apply (proj2 beat_zero_mesh 0 Fixture.main_loaded); reflexivity.
Defined.
End MoreExamples.

(** ** The keyboard *)

Section Keys.
Import HeartAnimation Keyboard.

Lemma Math_min_spec (p q : Qc) : Math_min p q <= p /\ Math_min p q <= q.
Proof.
  unfold Math_min. destruct (p <? q) eqn:H.
  - apply ltb_true in H. split; [apply Qcle_refl | by apply Qclt_le_weak].
  - apply ltb_false in H. split; [by apply Qcnot_lt_le | apply Qcle_refl].
Qed.

Lemma Math_max_spec (p q : Qc) : p <= Math_max p q /\ q <= Math_max p q.
Proof.
  unfold Math_max, gtb. destruct (bool_decide (q < p)) eqn:H.
  - apply bool_decide_eq_true in H. split; [apply Qcle_refl | by apply Qclt_le_weak].
  - apply bool_decide_eq_false in H. split; [by apply Qcnot_lt_le | apply Qcle_refl].
Qed.

Lemma Math_min_cases (p q : Qc) : Math_min p q = p \/ Math_min p q = q.
Proof. unfold Math_min. destruct (p <? q); auto. Qed.

Lemma Math_max_cases (p q : Qc) : Math_max p q = p \/ Math_max p q = q.
Proof. unfold Math_max. destruct (p >? q); auto. Qed.

Lemma volume_ok_intro p au :
  audio p = Some au -> 0 <= volume au <= 1 -> volume_ok p.
Proof. intros Ha Hv. unfold volume_ok. by rewrite Ha. Qed.

Lemma volume_ok_same p q : audio q = audio p -> volume_ok p -> volume_ok q.
Proof. intros Ha. unfold volume_ok. by rewrite Ha. Qed.

Lemma volume_ok_key rv k p : volume_ok p -> volume_ok (onKeyDown rv k p).
Proof.
  intros Hv.
  destruct k; cbn [onKeyDown]; try exact Hv.
  - cbv zeta. by destruct (isAnimating _); apply (volume_ok_same p).
  - destruct (audio p) as [au|] eqn:Ha; [|by apply (volume_ok_same p)].
    unfold volume_ok in Hv. rewrite Ha in Hv.
    by destruct (paused au); eapply volume_ok_intro.
  - destruct (audio p) as [au|] eqn:Ha; [|by apply (volume_ok_same p)].
    unfold volume_ok in Hv. rewrite Ha in Hv. by eapply volume_ok_intro.
  - destruct (audio p) as [au|] eqn:Ha; [|by apply (volume_ok_same p)].
    destruct (volume au <? num 1.0) eqn:Hlt; [|by apply (volume_ok_same p)].
    unfold volume_ok in Hv. rewrite Ha in Hv. destruct Hv as [H0 H1].
    cbv zeta. eapply volume_ok_intro; [reflexivity|]. cbn [volume].
    destruct (Math_min_spec (num 1.0) (volume au + num 0.1)) as [Hm1 Hm2].
    split.
    + destruct (Math_min_cases (num 1.0) (volume au + num 0.1)) as [-> | ->];
        qc2q; lra.
    + revert Hm1. generalize (Math_min (num 1.0) (volume au + num 0.1)).
      intros m Hm1. qc2q. lra.
  - destruct (audio p) as [au|] eqn:Ha; [|by apply (volume_ok_same p)].
    destruct (volume au >? num 0.0) eqn:Hlt; [|by apply (volume_ok_same p)].
    unfold volume_ok in Hv. rewrite Ha in Hv. destruct Hv as [H0 H1].
    cbv zeta. eapply volume_ok_intro; [reflexivity|]. cbn [volume].
    destruct (Math_max_spec (num 0.0) (volume au - num 0.1)) as [Hm1 Hm2].
    split.
    + revert Hm1. generalize (Math_max (num 0.0) (volume au - num 0.1)).
      intros m Hm1. qc2q. lra.
    + destruct (Math_max_cases (num 0.0) (volume au - num 0.1)) as [-> | ->];
        qc2q; lra.
  - destruct (audio p) as [au|] eqn:Ha; [|by apply (volume_ok_same p)].
    unfold volume_ok in Hv. rewrite Ha in Hv.
    cbv zeta. by destruct (loop _); eapply volume_ok_intro.
  - destruct rv; [|done].
    destruct (heartText p) as [v|]; [|by apply (volume_ok_same p)].
    by destruct (negb v); apply (volume_ok_same p).
Qed.

Lemma volume_ok_press rv k p : volume_ok p -> volume_ok (keydown rv k p).
Proof. intros Hv. unfold keydown. by do 2 apply volume_ok_key. Qed.

(** The volume after one run of the handler. *)
Lemma onKeyDown_volume rv k p au :
  audio p = Some au -> 0 <= volume au <= 1 ->
  exists au1,
    audio (onKeyDown rv k p) = Some au1
    /\ volume au1 = match k with
                    | KeyPlus => Math_min (num 1.0) (volume au + num 0.1)
                    | KeyMinus => Math_max (num 0.0) (volume au - num 0.1)
                    | _ => volume au
                    end.
Proof.
  intros Ha [H0 H1].
  destruct k; cbn [onKeyDown]; try (by exists au).
  - cbv zeta. destruct (isAnimating _); by exists au.
  - rewrite Ha. destruct (paused au); by eexists.
  - rewrite Ha. by eexists.
  - rewrite Ha. destruct (volume au <? num 1.0) eqn:Hlt; [by eexists|].
    exists au. split; [exact Ha|].
    apply ltb_false in Hlt.
    assert (volume au = num 1.0) as ->; [|qc_eq].
    apply Qcle_antisym; [exact H1 | by apply Qcnot_lt_le].
  - rewrite Ha. destruct (volume au >? num 0.0) eqn:Hgt; [by eexists|].
    exists au. split; [exact Ha|].
    unfold gtb in Hgt. apply bool_decide_eq_false in Hgt.
    assert (volume au = num 0.0) as ->; [|qc_eq].
    apply Qcle_antisym; [by apply Qcnot_lt_le | exact H0].
  - rewrite Ha. cbv zeta. destruct (loop _); by eexists.
  - destruct rv; [|by exists au].
    destruct (heartText p) as [v|]; [|by exists au].
    destruct (negb v); by exists au.
Qed.

Lemma Math_min_twice (v : Qc) :
  Math_min (num 1.0) (Math_min (num 1.0) (v + num 0.1) + num 0.1)
  = Math_min (num 1.0) (v + num 0.2).
Proof.
  assert (num 0.1 + num 0.1 = num 0.2) as Hsum by qc_eq.
  unfold Math_min at 2. destruct (num 1.0 <? v + num 0.1) eqn:H1.
  - apply ltb_true in H1.
    assert ((num 1.0 <? v + num 0.2) = true) as H2.
    { apply ltb_true. revert H1. generalize v. intros w H1. qc2q. lra. }
    unfold Math_min. rewrite H2.
    assert ((num 1.0 <? num 1.0 + num 0.1) = true) as -> by (apply ltb_true; qc_order).
    done.
  - by rewrite <- Qcplus_assoc, Hsum.
Qed.

Lemma Math_max_twice (v : Qc) :
  Math_max (num 0.0) (Math_max (num 0.0) (v - num 0.1) - num 0.1)
  = Math_max (num 0.0) (v - num 0.2).
Proof.
  assert (v - num 0.1 - num 0.1 = v - num 0.2) as Hsum.
  { assert (- num 0.1 + - num 0.1 = - num 0.2) as H by qc_eq.
    unfold Qcminus. by rewrite <- Qcplus_assoc, H. }
  unfold Math_max at 2. destruct (num 0.0 >? v - num 0.1) eqn:H1.
  - unfold gtb in H1. apply bool_decide_eq_true in H1.
    assert ((num 0.0 >? v - num 0.2) = true) as H2.
    { unfold gtb. apply bool_decide_eq_true. revert H1. generalize v.
      intros w H1. qc2q. lra. }
    unfold Math_max. rewrite H2.
    assert ((num 0.0 >? num 0.0 - num 0.1) = true) as ->
      by (unfold gtb; apply bool_decide_eq_true; qc_order).
    done.
  - by rewrite Hsum.
Qed.

(** X9.  One run of [onKeyDown] for [+] sets the volume [v] of the audio
    element to [min 1 (v + 0.1)], one for [-] to [max 0 (v - 0.1)], and a
    run for any other key leaves it as it is.  A press of a key runs the
    handler twice, so [+] gives [min 1 (v + 0.2)] and [-] gives
    [max 0 (v - 0.2)].  Hence whatever is typed the volume stays between 0
    and 1, also from the 0.7 that [setupAudio] sets. *)
Theorem volume_stays_in_range rv (keys : list key) p :
  volume_ok p ->
  volume_ok (fold_left (fun p k => keydown rv k p) keys p)
  /\ (exists au, audio (setupAudio p) = Some au /\ volume au = num 0.7)
  /\ volume_ok (fold_left (fun p k => keydown rv k p) keys (setupAudio p))
  /\ forall k au, audio p = Some au ->
       exists au1 au2,
         audio (onKeyDown rv k p) = Some au1
         /\ volume au1 = match k with
                         | KeyPlus => Math_min (num 1.0) (volume au + num 0.1)
                         | KeyMinus => Math_max (num 0.0) (volume au - num 0.1)
                         | _ => volume au
                         end
         /\ audio (keydown rv k p) = Some au2
         /\ volume au2 = match k with
                         | KeyPlus => Math_min (num 1.0) (volume au + num 0.2)
                         | KeyMinus => Math_max (num 0.0) (volume au - num 0.2)
                         | _ => volume au
                         end.
Proof.
  assert (forall q, volume_ok q ->
            volume_ok (fold_left (fun p k => keydown rv k p) keys q)) as Hall.
  { induction keys as [|k keys IH]; intros q Hq; [done|].
    cbn [fold_left]. by apply IH, volume_ok_press. }
  intros Hv. split; [by apply Hall|]. split; [by eexists|]. split.
  { apply Hall. eapply volume_ok_intro; [reflexivity|]. split; qc_order. }
  intros k au Ha.
  assert (0 <= volume au <= 1) as Hau by (unfold volume_ok in Hv; by rewrite Ha in Hv).
  destruct (onKeyDown_volume rv k p au Ha Hau) as (au1 & Ha1 & Hv1).
  assert (0 <= volume au1 <= 1) as Hau1.
  { pose proof (volume_ok_key rv k p Hv) as Hv'. unfold volume_ok in Hv'.
    by rewrite Ha1 in Hv'. }
  destruct (onKeyDown_volume rv k (onKeyDown rv k p) au1 Ha1 Hau1) as (au2 & Ha2 & Hv2).
  exists au1, au2. split; [exact Ha1|]. split; [exact Hv1|]. split; [exact Ha2|].
  rewrite Hv2, Hv1.
  destruct k; try reflexivity; [apply Math_min_twice | apply Math_max_twice].
Qed.

Lemma space_press_app rv p : app (keydown rv Space p) = app p.
Proof.
  destruct p as [h l au c ht ns]. destruct h as [? ? ? ? ? ? ? ? ? ? ? b ? ? ?].
  by destruct b.
Qed.

(** X10.  A press of the space bar runs [onKeyDown] twice, so
    [isAnimating] is toggled twice and keeps its value: the space bar
    neither pauses nor resumes, however often it is pressed, and both
    notifications are shown.  After the press the loop of
    [setAnimationLoop] is installed exactly when the animation is running:
    then it calls [render] on every frame, without the frame-skip test,
    beside the loop of [requestAnimationFrame], which goes on as before. *)
Theorem space_press_toggles_twice rv p :
  let p' := handle rv p (Key Space) in
  app p' = app p
  /\ animationLoop p' = isAnimating (app p)
  /\ notifications p'
     = notifications p ++
       (if isAnimating (app p)
        then [(AnimationPaused, warning); (AnimationStarted, success)]
        else [(AnimationStarted, success); (AnimationPaused, warning)])
  /\ (forall n, app (Nat.iter n (fun p => handle rv p (Key Space)) p) = app p)
  /\ (forall f, app (handle rv p' (AnimationFrame f))
                = app (handle rv p (AnimationFrame f)))
  /\ (isAnimating (app p) = true ->
      forall f, app (handle rv p' (LoopFrame f)) = (render rv f (app p)).2)
  /\ (isAnimating (app p) = false ->
      forall f, handle rv p' (LoopFrame f) = p').
Proof.
  cbv zeta. cbn [handle].
  assert (animationLoop (keydown rv Space p) = isAnimating (app p)) as Hloop.
  { destruct p as [h l au c ht ns]. destruct h as [? ? ? ? ? ? ? ? ? ? ? b ? ? ?].
    by destruct b. }
  split; [apply space_press_app|]. split; [exact Hloop|]. split.
  { destruct p as [h l au c ht ns]. destruct h as [? ? ? ? ? ? ? ? ? ? ? b ? ? ?].
    destruct b; cbn; by rewrite <- app_assoc. }
  split.
  { intros n. induction n as [|n IH]; [done|].
    rewrite Nat.iter_succ. cbv beta. by rewrite space_press_app. }
  split; [|split].
  - intros f. cbn [set_app app]. by rewrite space_press_app.
  - intros Ha f. rewrite Hloop, Ha. cbn [set_app app]. by rewrite space_press_app.
  - intros Ha f. by rewrite Hloop, Ha.
Qed.
End Keys.

(** ** The "No" button *)

Section NoClicks.
Import NoButton.

Lemma clicks_snoc handler draws d :
  clicks handler (draws ++ [d]) = handler d.1 d.2 (clicks handler draws).
Proof. unfold clicks. by rewrite fold_left_app. Qed.

Lemma clicks_count_000 draws :
  noClickCount (clicks Part000.handleNoClick draws) = length draws.
Proof.
  induction draws as [|d draws IH] using rev_ind; [done|].
  rewrite clicks_snoc, length_app. cbn. rewrite IH. lia.
Qed.

Lemma clicks_count_main draws :
  noClickCount (clicks MainJs.handleNoClick draws) = length draws.
Proof.
  induction draws as [|d draws IH] using rev_ind; [done|].
  rewrite clicks_snoc, length_app. cbn. rewrite IH. lia.
Qed.

Lemma handleNoClick_000_fields r1 r2 st :
  noDisplayNone (Part000.handleNoClick r1 r2 st)
  = (if (7 <? S (noClickCount st))%nat then true else noDisplayNone st)
  /\ noText (Part000.handleNoClick r1 r2 st)
    = written (Part000.noMessages !! Nat.min (S (noClickCount st)) 6)
  /\ yesScale (Part000.handleNoClick r1 r2 st)
    = Some (1 + of_nat (S (noClickCount st)) * num 0.3).
Proof. done. Qed.

Lemma handleNoClick_main_fields r1 r2 st :
  noDisplayNone (MainJs.handleNoClick r1 r2 st) = noDisplayNone st
  /\ noText (MainJs.handleNoClick r1 r2 st)
    = written (MainJs.noMessages !! Nat.min (S (noClickCount st) - 1) 3)
  /\ yesScale (MainJs.handleNoClick r1 r2 st)
    = Some (1 + of_nat (S (noClickCount st)) * num 0.3).
Proof. done. Qed.

(** After [n >= 1] runs of [handleNoClick] of part_000 the text is entry
    [min n 6] of the seven messages, the scale is [1 + 0.3 n], and the
    button is hidden from the eighth run on. *)
Lemma handleNoClick_000_runs (draws : list (Qc * Qc)) :
  let n := length draws in
  let st := clicks Part000.handleNoClick draws in
  noClickCount st = n
  /\ noDisplayNone st = bool_decide (8 <= n)%nat
  /\ ((1 <= n)%nat ->
      (exists m, Part000.noMessages !! Nat.min n 6 = Some m /\ noText st = Text m)
      /\ noText st <> Text "Không"
      /\ yesScale st = Some (1 + of_nat n * num 0.3)).
Proof.
  cbv zeta. split; [apply clicks_count_000|].
  induction draws as [|d draws IH] using rev_ind; [split; [done | cbn; lia]|].
  destruct IH as [IHh _].
  rewrite clicks_snoc, length_app. cbn [length].
  replace (length draws + 1)%nat with (S (length draws)) by lia.
  destruct (handleNoClick_000_fields d.1 d.2 (clicks Part000.handleNoClick draws))
    as (-> & -> & ->).
  rewrite clicks_count_000.
  split.
  - rewrite IHh.
    destruct (7 <? S (length draws))%nat eqn:Hlt.
    + apply Nat.ltb_lt in Hlt. symmetry. apply bool_decide_eq_true. lia.
    + apply Nat.ltb_ge in Hlt.
      rewrite !bool_decide_false by lia. done.
  - intros _.
    assert (Nat.min (S (length draws)) 6 = 1 \/ Nat.min (S (length draws)) 6 = 2
            \/ Nat.min (S (length draws)) 6 = 3 \/ Nat.min (S (length draws)) 6 = 4
            \/ Nat.min (S (length draws)) 6 = 5 \/ Nat.min (S (length draws)) 6 = 6)%nat
      as Hcases by lia.
    destruct Hcases as [-> | [-> | [-> | [-> | [-> | ->]]]]];
      (split; [by eexists | split; [done | done]]).
Qed.

Lemma clicks_000_snoc draws d :
  clicks_000 (draws ++ [d]) = Part000.onClick d.1 d.2 (clicks_000 draws).
Proof. unfold clicks_000. by rewrite fold_left_app. Qed.

(** The clicks of part_000 as runs of the handler, two for each. *)
Lemma clicks_000_runs (draws : list ((Qc * Qc) * (Qc * Qc))) :
  clicks_000 draws = clicks Part000.handleNoClick (draws ≫= (fun d => [d.1; d.2]))
  /\ length (draws ≫= (fun d => [d.1; d.2])) = (2 * length draws)%nat.
Proof.
  induction draws as [|d draws [IH1 IH2]] using rev_ind; [done|].
  rewrite clicks_000_snoc, bind_app, !length_app, IH1, IH2. cbn [mbind list_bind app length].
  split; [|lia].
  unfold clicks, Part000.onClick. by rewrite fold_left_app.
Qed.

(** X11.  In part_000 one click on the "No" button runs [handleNoClick]
    twice, for the button has two click listeners.  So after [n >= 1] clicks
    the count is [2 n], the text of the button is entry [min (2 n) 6] of the
    seven messages (the third, the fifth, then the seventh for good: never
    the first or the second), the "Yes" button is scaled by
    [1 + 0.3 (2 n)], and the "No" button is hidden from the fourth click
    on, not before. *)
Theorem no_button_000 (draws : list ((Qc * Qc) * (Qc * Qc))) :
  let n := length draws in
  let st := clicks_000 draws in
  noClickCount st = (2 * n)%nat
  /\ noDisplayNone st = bool_decide (4 <= n)%nat
  /\ ((1 <= n)%nat ->
      (exists m, Part000.noMessages !! Nat.min (2 * n) 6 = Some m /\ noText st = Text m)
      /\ noText st <> Text "Không"
      /\ noText st <> Text "Thật sự là không sao?"
      /\ yesScale st = Some (1 + of_nat (2 * n) * num 0.3)).
Proof.
  cbv zeta. destruct (clicks_000_runs draws) as [-> Hlen].
  destruct (handleNoClick_000_runs (draws ≫= (fun d => [d.1; d.2])))
    as (Hcount & Hhide & Hrest).
  rewrite Hlen in *.
  split; [exact Hcount|]. split.
  - rewrite Hhide. apply bool_decide_ext. lia.
  - intros Hn. destruct Hrest as ((m & Hm & Htext) & Hfirst & Hscale); [lia|].
    split; [by exists m|]. split; [exact Hfirst|]. split; [|exact Hscale].
    rewrite Htext.
    assert (Nat.min (2 * length draws) 6 = 2 \/ Nat.min (2 * length draws) 6 = 4
            \/ Nat.min (2 * length draws) 6 = 6)%nat as Hcases by lia.
    destruct Hcases as [Hc | [Hc | Hc]]; rewrite Hc in Hm;
      injection Hm as <-; discriminate.
Qed.

(** X12.  In assets/js/main.js, after [n >= 1] clicks the text of the "No"
    button is entry [min (n - 1) 3] of the four messages, so the messages
    appear in order from the first and the last one stays; the "Yes" button
    is scaled by [1 + 0.3 n]; the "No" button is never hidden. *)
Theorem no_button_main (draws : list (Qc * Qc)) :
  let n := length draws in
  let st := clicks MainJs.handleNoClick draws in
  noClickCount st = n
  /\ noDisplayNone st = false
  /\ ((1 <= n)%nat ->
      (exists m, MainJs.noMessages !! Nat.min (n - 1) 3 = Some m /\ noText st = Text m)
      /\ yesScale st = Some (1 + of_nat n * num 0.3)).
Proof.
  cbv zeta. split; [apply clicks_count_main|].
  induction draws as [|d draws IH] using rev_ind; [split; [done | cbn; lia]|].
  destruct IH as [IHh _].
  rewrite clicks_snoc, length_app. cbn [length].
  replace (length draws + 1)%nat with (S (length draws)) by lia.
  destruct (handleNoClick_main_fields d.1 d.2 (clicks MainJs.handleNoClick draws))
    as (-> & -> & ->).
  rewrite clicks_count_main.
  split; [exact IHh|].
  intros _.
  replace (S (length draws) - 1)%nat with (length draws) by lia.
  assert (Nat.min (length draws) 3 = 0 \/ Nat.min (length draws) 3 = 1
          \/ Nat.min (length draws) 3 = 2 \/ Nat.min (length draws) 3 = 3)%nat
    as Hcases by lia.
  destruct Hcases as [-> | [-> | [-> | ->]]]; (split; [by eexists | done]).
Qed.
End NoClicks.

(** * The service worker *)

Section Worker.
Import ServiceWorker.
Implicit Types (cs : CacheStorage) (net : Network) (url name : string).

Lemma matchAll_app cs cs' url :
  matchAll (cs ++ cs') url =
  match matchAll cs url with Some r => Some r | None => matchAll cs' url end.
Proof.
  induction cs as [|[n c] cs IH]; cbn; [by destruct (matchAll cs' url)|].
  by destruct (c !! url).
Qed.

Lemma matchAll_open name cs url : matchAll (open name cs) url = matchAll cs url.
Proof.
  unfold open. case_bool_decide; [done|].
  rewrite matchAll_app. cbn. rewrite lookup_empty. by destruct (matchAll cs url).
Qed.

Lemma open_has name cs : name ∈ (open name cs).*1.
Proof.
  unfold open. case_bool_decide; [done|].
  rewrite fmap_app. apply elem_of_app. right. cbn. apply list_elem_of_here.
Qed.

Lemma fetchAll_Some net urls :
  Forall (fun url => exists r, net url = Some r /\ ok r = true) urls ->
  fetchAll net urls = Some (omap (fun url => r ← net url; Some (url, r)) urls)
  /\ Forall (fun url => exists r, (url, r) ∈ omap (fun url => r ← net url; Some (url, r)) urls) urls.
Proof.
  unfold fetchAll. induction 1 as [|url urls (r & Hr & Hok) _ [IH1 IH2]]; [done|].
  cbn [mapM omap list_omap]. rewrite Hr. cbn [mbind option_bind]. rewrite Hok, IH1. cbn.
  split; [done|]. constructor.
  - exists r. apply list_elem_of_here.
  - eapply Forall_impl; [exact IH2|]. intros u (r' & Hin). exists r'.
    by apply list_elem_of_further.
Qed.

Lemma fetchAll_None net urls url :
  url ∈ urls ->
  (forall r, net url = Some r -> ok r = false) ->
  fetchAll net urls = None.
Proof.
  unfold fetchAll. intros Hin Hbad.
  induction urls as [|u urls IH]; [by apply elem_of_nil in Hin|].
  cbn. apply elem_of_cons in Hin as [<- | Hin].
  - destruct (net url) as [r|] eqn:Hr; [|done]. cbn. by rewrite (Hbad r).
  - destruct (net u) as [r|]; [|done]. cbn. destruct (ok r); [|done]. cbn.
    by rewrite (IH Hin).
Qed.

(** Every stored entry is what the network answered for its URL, so the
    last write for a URL is that answer. *)
Lemma putAll_lookup net urls c url :
  url ∈ urls ->
  Forall (fun url => exists r, net url = Some r /\ ok r = true) urls ->
  putAll (omap (fun url => r ← net url; Some (url, r)) urls) c !! url = net url.
Proof.
  unfold putAll. revert c. induction urls as [|u urls IH] using rev_ind; intros c Hin Hall.
  { by apply elem_of_nil in Hin. }
  apply Forall_app in Hall as [Hall Hu]. apply Forall_singleton in Hu as (r & Hr & _).
  rewrite omap_app, fold_left_app. cbn. rewrite Hr. cbn.
  destruct (decide (u = url)) as [-> | Hne].
  - by rewrite lookup_insert_eq.
  - rewrite lookup_insert_ne by done.
    apply elem_of_app in Hin as [Hin | Hin]; [by apply IH|].
    apply list_elem_of_singleton in Hin. congruence.
Qed.

Lemma activate_update name f cs :
  name = CACHE_NAME ->
  name ∈ cs.*1 ->
  exists c rest, activate (update name f cs) = (name, f c) :: rest.
Proof.
  intros -> Hin. unfold activate.
  induction cs as [|[n c] cs IH]; [by apply elem_of_nil in Hin|].
  cbn [update]. destruct (decide (n = CACHE_NAME)) as [-> | Hne].
  - do 2 eexists. by rewrite filter_cons_True.
  - rewrite filter_cons_False by done. apply IH.
    cbn in Hin. apply elem_of_cons in Hin as [Heq | Hin]; [congruence | done].
Qed.

Lemma matchAll_update name f cs url :
  (forall c, is_Some (c !! url) -> is_Some (f c !! url)) ->
  is_Some (matchAll cs url) -> is_Some (matchAll (update name f cs) url).
Proof.
  intros Hf. induction cs as [|[n c] cs IH]; [done|].
  cbn [update]. destruct (decide (n = name)) as [-> | Hne]; cbn.
  - destruct (c !! url) as [r|] eqn:Hc.
    + intros _. destruct (Hf c) as [r' ->]; [by rewrite Hc|]. done.
    + intros H. by destruct (f c !! url).
  - destruct (c !! url); [done | exact IH].
Qed.

Lemma matchAll_update_here name f cs url r :
  name ∈ cs.*1 ->
  (forall c, f c !! url = Some r) ->
  is_Some (matchAll (update name f cs) url).
Proof.
  intros Hin Hf. induction cs as [|[n c] cs IH]; [by apply elem_of_nil in Hin|].
  cbn [update]. destruct (decide (n = name)) as [-> | Hne]; cbn.
  - by rewrite Hf.
  - destruct (c !! url); [done|]. apply IH.
    cbn in Hin. apply elem_of_cons in Hin as [Heq | Hin]; [congruence | done].
Qed.

(** X13.  If the network answers every listed URL with an [ok] response,
    the install succeeds, and from then on a fetch of a listed URL is answered
    from the caches whatever the network does; once the worker is activated
    the answer is the response fetched at install time. *)
Theorem install_serves_offline net cs :
  Forall (fun url => exists r, net url = Some r /\ ok r = true) urlsToCache ->
  (install net cs).1 = true
  /\ forall net' url, url ∈ urlsToCache ->
       (exists r, onFetch net' (install net cs).2 url = FromCache r)
       /\ exists r, net url = Some r
            /\ onFetch net' (activate (install net cs).2) url = FromCache r.
Proof.
  intros Hall. unfold install, addAll.
  destruct (fetchAll_Some net urlsToCache Hall) as [-> _]. cbn [fst snd].
  split; [done|]. intros net' url Hin.
  pose proof (putAll_lookup net urlsToCache) as Hput.
  pose proof (proj1 (Forall_forall _ _) Hall url Hin) as (r & Hr & _).
  split.
  - destruct (matchAll_update_here CACHE_NAME
                (putAll (omap (fun url => r ← net url; Some (url, r)) urlsToCache))
                (open CACHE_NAME cs) url r) as [r' Hr'].
    + apply open_has.
    + intros c. by rewrite Hput.
    + exists r'. unfold onFetch. by rewrite Hr'.
  - exists r. split; [done|].
    destruct (activate_update CACHE_NAME
                (putAll (omap (fun url => r ← net url; Some (url, r)) urlsToCache))
                (open CACHE_NAME cs) eq_refl (open_has _ _)) as (c & rest & ->).
    unfold onFetch. cbn [matchAll]. by rewrite Hput, Hr.
Qed.

(** X14.  If one listed URL cannot be fetched, or is answered with a
    response that is not [ok], the install fails and no response is stored:
    every fetch is answered as it was before the install. *)
Theorem install_all_or_nothing net cs url :
  url ∈ urlsToCache ->
  (forall r, net url = Some r -> ok r = false) ->
  (install net cs).1 = false
  /\ forall net' url', onFetch net' (install net cs).2 url' = onFetch net' cs url'.
Proof.
  intros Hin Hbad. unfold install, addAll.
  rewrite (fetchAll_None net urlsToCache url Hin Hbad). cbn [fst snd].
  split; [done|]. intros net' url'. unfold onFetch. by rewrite matchAll_open.
Qed.

Lemma matchAll_absent cs url :
  Forall (fun e => e.2 !! url = None) cs -> matchAll cs url = None.
Proof.
  induction 1 as [|[n c] cs Hc _ IH]; [done|]. cbn in *. by rewrite Hc.
Qed.

Lemma activate_other cs :
  CACHE_NAME ∉ cs.*1 -> activate cs = [].
Proof.
  unfold activate. induction cs as [|[n c] cs IH]; [done|].
  intros Hnot. cbn in Hnot. apply not_elem_of_cons in Hnot as [Hne Hnot].
  rewrite filter_cons_False by (cbn; congruence). by apply IH.
Qed.

Lemma cache_of_cons_ne name n c cs :
  n <> name -> cache_of name ((n, c) :: cs) = cache_of name cs.
Proof. intros Hne. unfold cache_of. cbn. by rewrite lookup_insert_ne. Qed.

(** X15.  After activation only the cache called [CACHE_NAME] answers: a
    fetch is served from that cache if it has the URL and goes to the network
    otherwise, whatever the deleted caches held. *)
Theorem activate_leaves_current_cache net cs url :
  NoDup cs.*1 ->
  onFetch net (activate cs) url =
  match cache_of CACHE_NAME cs !! url with
  | Some r => FromCache r
  | None => FromNetwork (net url)
  end.
Proof.
  intros Hnd. unfold onFetch.
  assert (matchAll (activate cs) url = cache_of CACHE_NAME cs !! url) as ->; [|done].
  induction cs as [|[n c] cs IH]; [done|].
  cbn in Hnd. apply NoDup_cons in Hnd as [Hn Hnd].
  unfold activate. destruct (decide (n = CACHE_NAME)) as [-> | Hne].
  - rewrite filter_cons_True by done. fold (activate cs).
    rewrite (activate_other cs Hn). cbn [matchAll].
    unfold cache_of. cbn. rewrite lookup_insert_eq. cbn. by destruct (c !! url).
  - rewrite filter_cons_False by done. fold (activate cs).
    rewrite cache_of_cons_ne by done. by apply IH.
Qed.
End Worker.

(** * Examples for the keys, the "No" button and the service worker *)

Section PageExamples.
Import HeartAnimation Keyboard NoButton.

Lemma volume_stays_in_range_witness :
  volume_ok sample_page
  /\ volume_ok (fold_left (fun p k => keydown rev_000 k p)
                  [KeyPlus; KeyPlus; KeyPlus; KeyPlus; KeyMinus; KeyM] sample_page).
Proof.
  assert (volume_ok sample_page) as Hv.
  { eapply volume_ok_intro; [reflexivity|]. split; qc_order. }
  split; [exact Hv|].
  exact (proj1 (volume_stays_in_range rev_000
                  [KeyPlus; KeyPlus; KeyPlus; KeyPlus; KeyMinus; KeyM] sample_page Hv)).
Defined.

Lemma space_press_toggles_twice_witness :
  isAnimating (app (handle rev_001 sample_page (Key Space))) = true
  /\ animationLoop (handle rev_001 sample_page (Key Space)) = true
  /\ forall f,
       app (handle rev_001 (handle rev_001 sample_page (Key Space)) (LoopFrame f))
       = (render rev_001 f (app sample_page)).2.
Proof.
  destruct (space_press_toggles_twice rev_001 sample_page)
    as (H1 & H2 & _ & _ & _ & H6 & _).
  split; [by rewrite H1|]. split; [by rewrite H2|].
  apply H6. reflexivity.
Defined.

Lemma no_button_000_witness :
  let draws := [((0, 0), (num 0.5, num 0.25)); ((1, 0), (0, 1));
                ((0, 0), (0, 0)); ((num 0.5, num 0.5), (1, 1))] in
  noClickCount (clicks_000 draws) = 8%nat
  /\ noDisplayNone (clicks_000 draws) = true
  /\ noText (clicks_000 draws) <> Text "Không"
  /\ yesScale (clicks_000 draws) = Some (1 + of_nat 8 * num 0.3).
Proof.
  cbv zeta.
  destruct (no_button_000 [((0, 0), (num 0.5, num 0.25)); ((1, 0), (0, 1));
                           ((0, 0), (0, 0)); ((num 0.5, num 0.5), (1, 1))])
    as (H1 & H2 & H).
  destruct H as (_ & H3 & _ & H4); [simpl; lia|].
  exact (conj H1 (conj H2 (conj H3 H4))).
Defined.

Lemma no_button_main_witness :
  yesScale (clicks MainJs.handleNoClick [(0, 0); (num 0.5, num 0.25); (1, 0)])
  = Some (1 + of_nat 3 * num 0.3).
Proof.
  destruct (no_button_main [(0, 0); (num 0.5, num 0.25); (1, 0)]) as (_ & _ & H).
  destruct H as (_ & H2); [simpl; lia|].
  exact H2.
Defined.
End PageExamples.

Section WorkerExamples.
Import ServiceWorker WorkerSample.

Lemma install_serves_offline_witness :
  onFetch offline (activate (install online old_caches).2) "/heart-animation/"
  = FromCache (mkResponse true "/heart-animation/").
Proof.
  destruct (install_serves_offline online old_caches) as [_ H].
  { repeat constructor; by eexists. }
  destruct (H offline "/heart-animation/") as (_ & r & Hr & ->).
  { apply list_elem_of_here. }
  injection Hr as <-. reflexivity.
Defined.

Lemma install_all_or_nothing_witness :
  (install missing_music old_caches).1 = false
  /\ onFetch offline (install missing_music old_caches).2 "/heart-animation/index.html"
     = FromNetwork None.
Proof.
  destruct (install_all_or_nothing missing_music old_caches
              "/heart-animation/assets/music/Goy Arachaporn.mp3") as [H1 H2].
  { repeat first [apply list_elem_of_here | apply list_elem_of_further]. }
  { intros r Hr. vm_compute in Hr. by injection Hr as <-. }
  split; [exact H1|]. rewrite H2. reflexivity.
Defined.

Lemma activate_leaves_current_cache_witness :
  onFetch online (activate old_caches) "/heart-animation/"
  = FromNetwork (Some (mkResponse true "/heart-animation/")).
Proof.
  rewrite (activate_leaves_current_cache online old_caches "/heart-animation/").
  - reflexivity.
  - repeat constructor. apply not_elem_of_nil.
Defined.
End WorkerExamples.

(** * Utils.debounce *)

Section Debounced.
Import Debounce.
Context {A : Type} (wait : Qc).
Implicit Types (s : t A) (e : event A) (evs : list (event A)).

Lemma Forall_filter_keep {B} (P Q : B -> Prop) `{!forall x, Decision (Q x)} (l : list B) :
  Forall P l -> Forall P (filter Q l).
Proof.
  rewrite !Forall_forall. intros Hall x Hx. apply list_elem_of_filter in Hx as [_ Hx].
  by apply Hall.
Qed.

Lemma clearTimeout_named s : named s -> clearTimeout (timeout s) (timers s) = [].
Proof.
  unfold named, clearTimeout. destruct (timeout s) as [i|].
  - induction 1 as [|tm ts Htm _ IH]; [done|].
    rewrite filter_cons_False; [exact IH|]. intros Hne. congruence.
  - by destruct 1.
Qed.

Lemma named_step s e : named s -> named (step wait s e).
Proof.
  intros Hn. destruct e as [now a | now i]; cbn [step].
  - unfold executedFunction. rewrite (clearTimeout_named s Hn).
    unfold named. cbn. by constructor.
  - unfold fire. destruct (find _ (timers s)) as [tm|]; [|done].
    destruct (is_due _ _); [|done].
    unfold named in *. cbn [timers timeout].
    destruct (timeout s) as [j|]; cbn [clearTimeout];
      repeat apply Forall_filter_keep; exact Hn.
Qed.

Lemma named_run evs : named (run wait evs).
Proof.
  unfold run. induction evs as [|e evs IH] using rev_ind; [by constructor|].
  rewrite fold_left_app. cbn [fold_left]. by apply named_step.
Qed.

Lemma idle_fires s post :
  timers s = [] -> forallb is_fire post = true ->
  calls (fold_left (step wait) post s) = calls s.
Proof.
  revert s. induction post as [|[now a | now i] post IH]; intros s Hs Hf; [done | done |].
  cbn [fold_left step]. cbn in Hf.
  assert (fire now i s = s) as ->; [|by apply IH].
  unfold fire. by rewrite Hs.
Qed.

Lemma armed_fires s n d a post :
  timeout s = Some n -> timers s = [mkTimer n d a] ->
  forallb is_fire post = true ->
  calls (fold_left (step wait) post s) =
  match find (fires n d) post with
  | Some e => calls s ++ [(time e, a)]
  | None => calls s
  end.
Proof.
  revert s. induction post as [|[now b | now i] post IH]; intros s Ht Hs Hf; [done | done |].
  cbn [fold_left step find fires]. cbn in Hf.
  unfold fire. rewrite Hs. cbn [find id].
  destruct (decide (i = n)) as [-> | Hne].
  - rewrite Nat.eqb_refl. cbn [andb due].
    destruct (is_due d now) eqn:Hdue; [|by apply IH].
    rewrite idle_fires; [done | | done].
    cbn [timers]. rewrite Ht. cbn [clearTimeout args].
    rewrite filter_cons_False by (cbn; intros H; by apply H). done.
  - rewrite (proj2 (Nat.eqb_neq n i)) by congruence.
    rewrite (proj2 (Nat.eqb_neq i n)) by congruence. cbn [andb].
    by apply IH.
Qed.

(** X16.  After a call of the debounced function, [func] runs once: when
    the timer of that call first fires at or after [wait] past the call,
    with the arguments of that call.  Until then it does not run, and a
    call made before that had not run yet never does. *)
Theorem debounce_runs_last_call (pre : list (event A)) now (a : A) (post : list (event A)) :
  forallb is_fire post = true ->
  calls (run wait (pre ++ Invoke now a :: post)) =
  match find (fires (next (run wait pre)) (now + wait)) post with
  | Some e => calls (run wait pre) ++ [(time e, a)]
  | None => calls (run wait pre)
  end.
Proof.
  intros Hf. unfold run at 1. rewrite fold_left_app. cbn [fold_left step].
  fold (run wait pre).
  rewrite (armed_fires _ (next (run wait pre)) (now + wait) a post); [done | done | | done].
  unfold executedFunction. cbn [timers].
  by rewrite (clearTimeout_named _ (named_run pre)).
Qed.
End Debounced.

(** * Utils.throttle *)

Section Throttled.
Import Throttle.
Context {A : Type} (limit : Qc).
Implicit Types (s : t A) (e : Debounce.event A) (evs : list (Debounce.event A)).

Lemma is_due_le d now : is_due d now = true -> d <= now.
Proof.
  unfold is_due. intros H. apply negb_true_iff, ltb_false in H.
  by apply Qcnot_lt_le.
Qed.

Lemma spaced_snoc (l : list (Qc * A)) c :
  spaced limit l ->
  (forall c', last l = Some c' -> c'.1 + limit <= c.1) ->
  spaced limit (l ++ [c]).
Proof.
  induction l as [|c0 l IH]; intros Hs Hl; [done|].
  destruct Hs as [Hhd Hs]. cbn [app spaced]. split.
  - destruct l as [|c1 l]; [by apply Hl | exact Hhd].
  - apply IH; [exact Hs|]. intros c' Hc'. apply Hl.
    destruct l; [done | exact Hc'].
Qed.

Lemma paced_step now s e :
  now <= Debounce.time e -> paced limit now s -> paced limit (Debounce.time e) (step limit s e).
Proof.
  intros Hle [Hsp Hst]. destruct e as [t a | t i]; cbn [step Debounce.time] in *.
  - unfold throttled. destruct (inThrottle s) eqn:Hin; cbn [negb].
    + split; [exact Hsp|]. by rewrite Hin.
    + destruct Hst as [Hts Hlast]. split; cbn [calls inThrottle timers].
      * apply spaced_snoc; [exact Hsp|]. intros c' Hc'.
        eapply Qcle_trans; [by apply Hlast | exact Hle].
      * exists (t, a), (next s). rewrite last_snoc, Hts. done.
  - unfold fire. destruct (inThrottle s) eqn:Hin.
    + destruct Hst as (c & j & Hlast & Hts). rewrite Hts. cbn [find fst snd].
      destruct (Nat.eqb j i) eqn:Hji.
      * cbn [snd]. destruct (is_due (c.1 + limit) t) eqn:Hdue.
        -- split; [exact Hsp|]. cbn [inThrottle timers calls].
           apply Nat.eqb_eq in Hji as ->.
           rewrite filter_cons_False by (cbn; intros H; by apply H).
           split; [done|]. intros c' Hc'. rewrite Hlast in Hc'. injection Hc' as <-.
           by apply is_due_le.
        -- split; [exact Hsp|]. rewrite Hin. by exists c, j.
      * split; [exact Hsp|]. rewrite Hin. by exists c, j.
    + destruct Hst as [Hts Hlast]. rewrite Hts. cbn [find].
      split; [exact Hsp|]. rewrite Hin. split; [exact Hts|].
      intros c Hc. eapply Qcle_trans; [by apply Hlast | exact Hle].
Qed.

Lemma paced_fold evs : forall now s,
  in_order now evs -> paced limit now s ->
  exists now', paced limit now' (fold_left (step limit) evs s).
Proof.
  induction evs as [|e evs IH]; intros now s Ho Hp; [by exists now|].
  destruct Ho as [Hle Ho]. cbn [fold_left].
  apply (IH (Debounce.time e)); [exact Ho|]. by apply (paced_step now).
Qed.

(** X17.  When the events come in the order of their times, two successive
    calls of [func] made by the throttled function are at least [limit]
    apart. *)
Theorem throttle_spacing (evs : list (Debounce.event A)) (start : Qc) :
  in_order start evs ->
  spaced limit (calls (run limit evs)).
Proof.
  intros Ho.
  destruct (paced_fold evs start (throttle A) Ho) as (now' & Hsp & _); [|exact Hsp].
  split; [done|]. cbn. split; [done|]. intros c Hc. discriminate Hc.
Qed.

Lemma calls_step s e :
  exists l, calls (step limit s e) = calls s ++ l /\ l `sublist_of` invocations [e].
Proof.
  destruct e as [t a | t i]; cbn [step].
  - unfold throttled. destruct (negb (inThrottle s)); cbn [calls].
    + by exists [(t, a)].
    + exists []. rewrite app_nil_r. split; [done | apply sublist_nil_l].
  - exists []. rewrite app_nil_r. split; [|apply sublist_nil_l].
    unfold fire. destruct (find _ _); [|done]. by destruct (is_due _ _).
Qed.

Lemma calls_fold evs : forall s,
  exists l, calls (fold_left (step limit) evs s) = calls s ++ l
            /\ l `sublist_of` invocations evs.
Proof.
  induction evs as [|e evs IH]; intros s.
  - exists []. by rewrite app_nil_r.
  - cbn [fold_left]. destruct (IH (step limit s e)) as (l2 & -> & Hl2).
    destruct (calls_step s e) as (l1 & -> & Hl1).
    exists (l1 ++ l2). rewrite <- app_assoc. split; [done|].
    change (e :: evs) with ([e] ++ evs). unfold invocations in *.
    rewrite omap_app. by apply sublist_app.
Qed.

Lemma head_fold evs : forall s,
  calls s = [] -> inThrottle s = false -> timers s = [] ->
  head (calls (fold_left (step limit) evs s)) = head (invocations evs).
Proof.
  induction evs as [|[t a | t i] evs IH]; intros s Hc Hin Hts.
  - cbn [fold_left]. by rewrite Hc.
  - cbn [fold_left step]. unfold throttled. rewrite Hin. cbn [negb].
    destruct (calls_fold evs (mk true (timers s ++ [(next s, t + limit)]) (S (next s))
                                (calls s ++ [(t, a)]))) as (l & Hl & _).
    cbn [calls] in Hl. rewrite Hl, Hc. done.
  - cbn [fold_left step]. unfold fire. rewrite Hts. cbn [find]. by apply IH.
Qed.

(** X18.  The throttled function calls [func] only at once, with the
    arguments and at the time of one of its own calls: what it drops is never
    run later.  Its first call always goes through. *)
Theorem throttle_leading_edge (evs : list (Debounce.event A)) :
  calls (run limit evs) `sublist_of` invocations evs
  /\ head (calls (run limit evs)) = head (invocations evs).
Proof.
  split.
  - destruct (calls_fold evs (throttle A)) as (l & Hl & Hsub).
    unfold run. rewrite Hl. exact Hsub.
  - by apply head_fold.
Qed.
End Throttled.

(** * The loading progress *)

Section Progress.

Lemma Math_round_mono (p q : Qc) : p <= q -> (Math_round p <= Math_round q)%Z.
Proof.
  intros H. unfold Math_round. apply Qfloor_resp_le. qc2q. lra.
Qed.

Lemma of_nat_le (m n : nat) :
  (m <= n)%nat -> Q2Qc (inject_Z (Z.of_nat m)) <= Q2Qc (inject_Z (Z.of_nat n)).
Proof.
  intros H. qc2q. rewrite <- Zle_Qle. lia.
Qed.

Lemma of_Z_le (m n : Z) :
  (m <= n)%Z -> Q2Qc (inject_Z m) <= Q2Qc (inject_Z n).
Proof.
  intros H. qc2q. by rewrite <- Zle_Qle.
Qed.

Lemma ratio_finite (loaded total : nat) :
  (0 < total)%nat ->
  ratio loaded total
  = Finite (Q2Qc (inject_Z (Z.of_nat loaded)) / Q2Qc (inject_Z (Z.of_nat total))).
Proof. intros H. unfold ratio. destruct total; [lia | done]. Qed.

Lemma div_le (p q d : Qc) : 0 < d -> p <= q -> p / d <= q / d.
Proof.
  intros Hd Hpq. unfold Qcdiv. apply Qcmult_le_compat_r; [exact Hpq|].
  apply Qclt_le_weak. by apply Qcinv_pos.
Qed.

Lemma of_nat_pos (n : nat) : (0 < n)%nat -> 0 < Q2Qc (inject_Z (Z.of_nat n)).
Proof.
  intros H. qc2q. change 0%Q with (inject_Z 0). rewrite <- Zlt_Qlt. lia.
Qed.

Lemma div_same (d : Qc) : 0 < d -> d / d = 1.
Proof.
  intros Hd. unfold Qcdiv. apply Qcmult_inv_r. intros ->. revert Hd. qc_order.
Qed.

Lemma percent_value (p : Z) :
  (0 <= p <= 100)%Z ->
  num 95 <= num 95 + Q2Qc (inject_Z p) * num 0.05 <= num 100.
Proof.
  intros [H0 H100]. apply of_Z_le in H0, H100.
  revert H0 H100. generalize (Q2Qc (inject_Z p)). intros q H0 H100.
  split; qc2q; change (inject_Z 0) with 0%Q in H0;
    change (inject_Z 100) with 100%Q in H100; lra.
Qed.

Lemma percent_of (r : Qc) :
  0 <= r <= 1 -> (0 <= Math_round (r * num 100) <= 100)%Z.
Proof.
  intros [H0 H1].
  pose proof (Math_round_mono 0 (r * num 100)) as Ha.
  pose proof (Math_round_mono (r * num 100) (num 100)) as Hb.
  change (Math_round 0) with 0%Z in Ha.
  change (Math_round (num 100)) with 100%Z in Hb.
  split; [apply Ha | apply Hb]; qc2q; lra.
Qed.

(** X19.  For a progress event with [0 < total] and [loaded <= total],
    [onHeartProgress] hands [Utils.updateLoadingProgress] a percentage
    between 95 and 100, which is 95 when nothing is loaded and 100 when
    all is, and which does not decrease as more is loaded; the loading text
    shows between 95 and 100.  When [total] is 0 the percentage is not a
    finite number. *)
Theorem onHeartProgress_range (loaded total : nat) :
  (total = 0%nat -> loadingText (onHeartProgress loaded total) = None)
  /\ ((0 < total)%nat -> (loaded <= total)%nat ->
      exists v,
        onHeartProgress loaded total = Finite v
        /\ num 95 <= v <= num 100
        /\ (exists p, loadingText (Finite v) = Some p /\ (95 <= p <= 100)%Z)
        /\ (loaded = 0%nat -> v = num 95)
        /\ (loaded = total -> v = num 100)
        /\ forall loaded', (loaded <= loaded')%nat -> (loaded' <= total)%nat ->
             exists v', onHeartProgress loaded' total = Finite v' /\ v <= v').
Proof.
  split.
  { intros ->. by destruct loaded. }
  intros Ht Hl. unfold onHeartProgress. rewrite (ratio_finite _ _ Ht). cbv zeta.
  eexists. split; [reflexivity|].
  pose proof (of_nat_pos total Ht) as HT.
  assert (forall n, (n <= total)%nat ->
            0 <= Q2Qc (inject_Z (Z.of_nat n)) / Q2Qc (inject_Z (Z.of_nat total)) <= 1)
    as Hr.
  { intros n Hn. split.
    - assert (0 / Q2Qc (inject_Z (Z.of_nat total)) = 0) as <- by (unfold Qcdiv; ring).
      apply div_le; [exact HT|]. apply (of_nat_le 0 n). lia.
    - rewrite <- (div_same _ HT). apply div_le; [exact HT|]. by apply of_nat_le. }
  pose proof (percent_of _ (Hr loaded Hl)) as Hp.
  pose proof (percent_value _ Hp) as Hv.
  split; [exact Hv|]. split; [|split; [|split]].
  - eexists. split; [reflexivity|].
    split; [apply (Math_round_mono (num 95)) | apply (Math_round_mono _ (num 100))];
      apply Hv.
  - intros ->. qc_eq.
  - intros ->. rewrite (div_same _ HT). qc_eq.
  - intros loaded' Hle Hle'. rewrite (ratio_finite _ _ Ht). eexists. split; [reflexivity|].
    apply Qcplus_le_compat; [apply Qcle_refl|].
    apply Qcmult_le_compat_r; [|qc_order].
    apply of_Z_le, Math_round_mono.
    apply Qcmult_le_compat_r; [|qc_order].
    apply div_le; [exact HT|]. by apply of_nat_le.
Qed.
End Progress.

(** * Examples for the timers and the progress *)

Section TimerExamples.

Lemma debounce_runs_last_call_witness :
  Debounce.calls
    (Debounce.run (num 100)
       [Debounce.Invoke 0 "a"; Debounce.Invoke (num 50) "b";
        Debounce.Fire (num 100) 0%nat; Debounce.Fire (num 120) 1%nat;
        Debounce.Fire (num 150) 1%nat; Debounce.Fire (num 160) 1%nat])
  = [(num 150, "b")].
Proof.
  etransitivity.
  - apply (debounce_runs_last_call (num 100) [Debounce.Invoke 0 "a"] (num 50) "b"
             [Debounce.Fire (num 100) 0%nat; Debounce.Fire (num 120) 1%nat;
              Debounce.Fire (num 150) 1%nat; Debounce.Fire (num 160) 1%nat]).
    reflexivity.
  - reflexivity.
Defined.

Lemma throttle_spacing_witness :
  Throttle.spaced (num 100)
    (Throttle.calls
       (Throttle.run (num 100)
          [Debounce.Invoke 0 "a"; Debounce.Invoke (num 50) "b";
           Debounce.Fire (num 100) 0%nat; Debounce.Invoke (num 120) "c"])).
Proof.
  apply (throttle_spacing (num 100) _ 0).
  cbn [in_order Debounce.time]. repeat split; qc_order.
Defined.

Lemma onHeartProgress_range_witness :
  exists v, onHeartProgress 512 1024 = Finite v /\ num 95 <= v <= num 100.
Proof.
  destruct (proj2 (onHeartProgress_range 512 1024)) as (v & Hv & Hr & _); [lia | lia |].
  exists v. exact (conj Hv Hr).
Defined.
End TimerExamples.

(** * The fleeing "No" button *)

Section Fleeing.
Import NoMouseOver.

(** X20.  When the button is no larger than its container, the offsets
    [handleNoMouseOver] gives it keep it within the size of the container,
    for whatever [Math.random()] returns in [0, 1). *)
Theorem no_button_stays_inside (random1 random2 : Qc) (containerRect btnRect : rect) :
  0 <= random1 /\ random1 < 1 -> 0 <= random2 /\ random2 < 1 ->
  height btnRect <= height containerRect ->
  width btnRect <= width containerRect ->
  let s := handleNoMouseOver random1 random2 containerRect btnRect in
  0 <= top s /\ top s + height btnRect <= height containerRect
  /\ 0 <= left s /\ left s + width btnRect <= width containerRect.
Proof.
  intros [H1 H1'] [H2 H2'] Hh Hw. cbv zeta. unfold handleNoMouseOver. cbn [top left].
  destruct containerRect as [W H], btnRect as [w h]. cbn [width height] in *.
  repeat split; qc2q; nra.
Qed.

Lemma no_button_stays_inside_witness :
  let s := handleNoMouseOver (num 0.5) (num 0.25)
             (mkRect (num 400) (num 300)) (mkRect (num 80) (num 40)) in
  0 <= top s /\ top s + num 40 <= num 300
  /\ 0 <= left s /\ left s + num 80 <= num 400.
Proof.
  apply (no_button_stays_inside (num 0.5) (num 0.25)
           (mkRect (num 400) (num 300)) (mkRect (num 80) (num 40)));
    try split; qc_order.
Defined.
End Fleeing.
